(** * pthreads_examples: the ticket sellers and the reader/writer ring buffer

    A shallow embedding of [sellTickets.c] and [readerWriter.c].  Each
    thread body is cut into atomic steps at its synchronisation calls and
    at its accesses to shared memory; a thread is a program counter plus
    its local variables, and a run of the program is a schedule: the list
    of thread identifiers in the order in which they take a step
    (sequentially consistent interleaving).  [sem_wait] is enabled only
    when the count is positive; a thread that has called [pthread_exit]
    is never enabled again.  Calls to [usleep] take time and nothing else,
    so they appear only as scheduling points. *)

From Stdlib Require Import ZArith Lia Bool.
From stdpp Require Import base list.

Local Open Scope Z_scope.

(** ** The C type [int]

    Both programs compute on [int].  Arithmetic is written with its
    32-bit two's complement wrap-around, which is what the machine does
    where C leaves signed overflow undefined; the invariants below show
    that no run gets there.  [%] is C's remainder, which truncates
    toward zero ([Z.rem]). *)

Definition INT_MIN : Z := -2147483648.
Definition INT_MAX : Z := 2147483647.

Definition wrap_int (z : Z) : Z :=
  (z + 2147483648) mod 4294967296 - 2147483648.

(** Sums over the records of a list of threads. *)
Fixpoint sumZ {A : Type} (f : A -> Z) (l : list A) : Z :=
  match l with
  | [] => 0
  | x :: r => f x + sumZ f r
  end.

Definition nonneg_on {A : Type} (f : A -> Z) (l : list A) : Prop :=
  forall i x, l !! i = Some x -> 0 <= f x.

(** * sellTickets.c *)

Module SellTickets.

Definition NUM_TICKETS : Z := 35.
Definition NUM_SELLERS : nat := 4.

(** The points of [SellTickets] between which a seller takes one step. *)
Inductive pc : Type :=
| SLoop    (* while (!done) *)
| SDelay   (* random_r; usleep *)
| SWait    (* sem_wait(&ticketsLock) *)
| SCheck   (* if (numTickets == 0) done = true; *)
| SDec     (* numTickets--; *)
| SInc     (* numSoldByThisThread++; printf("%s sold one (%d left)") *)
| SPost    (* sem_post(&ticketsLock) *)
| SExit    (* printf("%s noticed all tickets sold! (I sold %d myself)") *)
| SDone.   (* after pthread_exit *)

(** The locals of one seller thread. *)
Record seller : Type := mkSeller {
  at_pc : pc;
  done : bool;
  numSoldByThisThread : Z
}.

(** What the two [printf] calls write, with the index of the seller. *)
Inductive line : Type :=
| SoldOne (t : nat) (left : Z)
| NoticedAllSold (t : nat) (sold : Z).

(** The globals, the threads and the standard output. *)
Record state : Type := mkState {
  numTickets : Z;
  ticketsLock : Z;
  sellers : list seller;
  output : list line
}.

Definition goto (p : pc) (w : seller) : seller :=
  mkSeller p (done w) (numSoldByThisThread w).

(** One step of seller [t]; [None] when the seller is blocked in
    [sem_wait], has exited, or does not exist. *)
Definition step (t : nat) (s : state) : option state :=
  match sellers s !! t with
  | None => None
  | Some w =>
    match at_pc w with
    | SLoop =>
        Some (mkState (numTickets s) (ticketsLock s)
                (<[t := goto (if done w then SExit else SDelay) w]> (sellers s))
                (output s))
    | SDelay =>
        Some (mkState (numTickets s) (ticketsLock s)
                (<[t := goto SWait w]> (sellers s)) (output s))
    | SWait =>
        if 0 <? ticketsLock s
        then Some (mkState (numTickets s) (ticketsLock s - 1)
                     (<[t := goto SCheck w]> (sellers s)) (output s))
        else None
    | SCheck =>
        if numTickets s =? 0
        then Some (mkState (numTickets s) (ticketsLock s)
                     (<[t := mkSeller SPost true (numSoldByThisThread w)]> (sellers s))
                     (output s))
        else Some (mkState (numTickets s) (ticketsLock s)
                     (<[t := goto SDec w]> (sellers s)) (output s))
    | SDec =>
        Some (mkState (wrap_int (numTickets s - 1)) (ticketsLock s)
                (<[t := goto SInc w]> (sellers s)) (output s))
    | SInc =>
        Some (mkState (numTickets s) (ticketsLock s)
                (<[t := mkSeller SPost (done w) (wrap_int (numSoldByThisThread w + 1))]>
                   (sellers s))
                (output s ++ [SoldOne t (numTickets s)]))
    | SPost =>
        Some (mkState (numTickets s) (ticketsLock s + 1)
                (<[t := goto SLoop w]> (sellers s)) (output s))
    | SExit =>
        Some (mkState (numTickets s) (ticketsLock s)
                (<[t := goto SDone w]> (sellers s))
                (output s ++ [NoticedAllSold t (numSoldByThisThread w)]))
    | SDone => None
    end
  end.

(** A run under a schedule: every scheduled seller must be able to step. *)
Fixpoint exec (sched : list nat) (s : state) : option state :=
  match sched with
  | [] => Some s
  | t :: rest =>
    match step t s with
    | Some s' => exec rest s'
    | None => None
    end
  end.

(** The state [main] sets up: [numTickets] tickets, the lock created
    with count 1, and [W] sellers about to enter their loop with
    [done = false] and [numSoldByThisThread = 0].  [main] creates the
    sellers one after the other; a schedule that lets a seller wait for
    its first step until the ones before it have taken theirs is a run
    in which it was created later, so all sellers are there from the
    start.  The failure of [pthread_create] is not modelled. *)
Definition init (T : Z) (W : nat) : state :=
  mkState T 1 (replicate W (mkSeller SLoop false 0)) [].

Definition main_init : state := init NUM_TICKETS NUM_SELLERS.

(** A seller is inside the critical section from the return of
    [sem_wait] until it calls [sem_post]. *)
Definition in_cs (w : seller) : Z :=
  match at_pc w with
  | SCheck | SDec | SInc | SPost => 1
  | _ => 0
  end.

(** Decrements of [numTickets] a seller has performed: those it has
    counted, and the one it is about to count when it stands between
    [numTickets--] and [numSoldByThisThread++]. *)
Definition decrements (w : seller) : Z :=
  numSoldByThisThread w + match at_pc w with SInc => 1 | _ => 0 end.

Definition total_sold (s : state) : Z := sumZ numSoldByThisThread (sellers s).
Definition total_decrements (s : state) : Z := sumZ decrements (sellers s).
Definition holders (s : state) : Z := sumZ in_cs (sellers s).

Definition exited (w : seller) : bool :=
  match at_pc w with SDone => true | _ => false end.

Definition all_exited (s : state) : bool := forallb exited (sellers s).

(** Steps a seller still has to take when no ticket is left for it. *)
Definition todo (w : seller) : Z :=
  match at_pc w with
  | SLoop => if done w then 2 else 7
  | SDelay => 6
  | SWait => 5
  | SCheck => 4
  | SDec => 3
  | SInc => 9
  | SPost => if done w then 3 else 8
  | SExit => 1
  | SDone => 0
  end.

(** Steps the whole program still has to take: seven for each ticket
    and seven for each seller to find out that none is left. *)
Definition steps_left (s : state) : Z :=
  7 * numTickets s + sumZ todo (sellers s).

(** The value of [ticketsLock] after each step of a schedule. *)
Fixpoint lock_trace (sched : list nat) (s : state) : list Z :=
  match sched with
  | [] => []
  | t :: rest =>
    match step t s with
    | Some s' => ticketsLock s' :: lock_trace rest s'
    | None => []
    end
  end.

(** The counts the sellers print when they leave, added up. *)
Fixpoint reported (out : list line) : Z :=
  match out with
  | [] => 0
  | NoticedAllSold _ sold :: r => sold + reported r
  | SoldOne _ _ :: r => reported r
  end.

Definition exit_sold (w : seller) : Z :=
  if exited w then numSoldByThisThread w else 0.

Definition line_ok (l : line) : Prop :=
  match l with
  | SoldOne _ n => 0 <= n
  | NoticedAllSold _ sold => 0 <= sold
  end.

(** What holds of the locals of a seller at each point, [n] being the
    current value of [numTickets]. *)
Definition seller_ok (n : Z) (w : seller) : Prop :=
  0 <= numSoldByThisThread w /\
  (done w = true -> n = 0) /\
  match at_pc w with
  | SLoop => True
  | SDelay | SWait | SCheck | SInc => done w = false
  | SDec => done w = false /\ 0 < n
  | SPost => done w = false -> 0 < numSoldByThisThread w
  | SExit | SDone => done w = true
  end.

(** The invariant of a run that started with [T] tickets. *)
Record inv (T : Z) (s : state) : Prop := mkInv {
  inv_range : 0 <= numTickets s <= T;
  inv_lock : 0 <= ticketsLock s;
  inv_holders : ticketsLock s + holders s = 1;
  inv_total : numTickets s + total_decrements s = T;
  inv_sellers : forall t w, sellers s !! t = Some w -> seller_ok (numTickets s) w;
  inv_reported : reported (output s) = sumZ exit_sold (sellers s);
  inv_output : Forall line_ok (output s)
}.

End SellTickets.

(** * readerWriter.c *)

Module ReaderWriter.

Definition NUM_TOTAL_BUFFERS : Z := 5.
Definition DATA_LENGTH : Z := 20.

(** The conversion of an [int] to [char] (eight bits, signed). *)
Definition to_char (z : Z) : Z := (z + 128) mod 256 - 128.

(** [PrepareData], as a function of the number [random_r] delivered. *)
Definition PrepareData (result : Z) : Z := to_char (65 + Z.rem result 25).

Inductive wpc : Type :=
| WLoop     (* i < DATA_LENGTH *)
| WPrepare  (* dataToWrite = PrepareData(writerData) *)
| WWait     (* sem_wait(data->pEmptyBuffers) *)
| WStore    (* data->sharedBuffer[writePt] = dataToWrite; printf *)
| WAdvance  (* writePt = (writePt + 1) % NUM_TOTAL_BUFFERS *)
| WPost     (* sem_post(data->pFullBuffers); i++ *)
| WDone.    (* after pthread_exit *)

Inductive rpc : Type :=
| RLoop     (* i < DATA_LENGTH *)
| RWait     (* sem_wait(data->pFullBuffers) *)
| RLoad     (* dataToRead = data->sharedBuffer[readPt]; printf *)
| RAdvance  (* readPt = (readPt + 1) % NUM_TOTAL_BUFFERS *)
| RPost     (* sem_post(data->pEmptyBuffers) *)
| RProcess  (* ProcessData(readerData); i++ *)
| RDone.    (* after pthread_exit *)

(** The two semaphores and the array of [main], the locals of [Writer]
    and of [Reader], and what each of them prints: the slot and the
    character of every line.  [w_calls] counts the calls of [random_r]
    on the writer's generator. *)
Record state : Type := mkState {
  emptyBuffers : Z;
  fullBuffers : Z;
  buffers : list Z;
  w_pc : wpc;
  w_i : Z;
  writePt : Z;
  dataToWrite : Z;
  w_calls : nat;
  r_pc : rpc;
  r_i : Z;
  readPt : Z;
  dataToRead : Z;
  writer_out : list (Z * Z);
  reader_out : list (Z * Z)
}.

Inductive tid : Type := TWriter | TReader.

(** What a step yields: the next state, nothing because the thread is
    blocked in [sem_wait] or has exited, or an access outside the array. *)
Inductive outcome : Type :=
| Running (s : state)
| Disabled
| Fault.

Definition in_bounds (i : Z) : bool := (0 <=? i) && (i <? NUM_TOTAL_BUFFERS).

Section Run.
(** The numbers the writer's generator delivers, call after call.  The
    reader's generator only feeds [usleep]. *)
Variable random_r : nat -> Z.

Definition step_writer (s : state) : outcome :=
  let at_ p :=
    mkState (emptyBuffers s) (fullBuffers s) (buffers s)
      p (w_i s) (writePt s) (dataToWrite s) (w_calls s)
      (r_pc s) (r_i s) (readPt s) (dataToRead s)
      (writer_out s) (reader_out s) in
  match w_pc s with
  | WLoop => Running (at_ (if w_i s <? DATA_LENGTH then WPrepare else WDone))
  | WPrepare =>
      Running (mkState (emptyBuffers s) (fullBuffers s) (buffers s)
        WWait (w_i s) (writePt s) (PrepareData (random_r (w_calls s))) (S (w_calls s))
        (r_pc s) (r_i s) (readPt s) (dataToRead s)
        (writer_out s) (reader_out s))
  | WWait =>
      if 0 <? emptyBuffers s
      then Running (mkState (emptyBuffers s - 1) (fullBuffers s) (buffers s)
        WStore (w_i s) (writePt s) (dataToWrite s) (w_calls s)
        (r_pc s) (r_i s) (readPt s) (dataToRead s)
        (writer_out s) (reader_out s))
      else Disabled
  | WStore =>
      if in_bounds (writePt s)
      then Running (mkState (emptyBuffers s) (fullBuffers s)
        (<[Z.to_nat (writePt s) := dataToWrite s]> (buffers s))
        WAdvance (w_i s) (writePt s) (dataToWrite s) (w_calls s)
        (r_pc s) (r_i s) (readPt s) (dataToRead s)
        (writer_out s ++ [(writePt s, dataToWrite s)]) (reader_out s))
      else Fault
  | WAdvance =>
      Running (mkState (emptyBuffers s) (fullBuffers s) (buffers s)
        WPost (w_i s) (Z.rem (wrap_int (writePt s + 1)) NUM_TOTAL_BUFFERS)
        (dataToWrite s) (w_calls s)
        (r_pc s) (r_i s) (readPt s) (dataToRead s)
        (writer_out s) (reader_out s))
  | WPost =>
      Running (mkState (emptyBuffers s) (fullBuffers s + 1) (buffers s)
        WLoop (wrap_int (w_i s + 1)) (writePt s) (dataToWrite s) (w_calls s)
        (r_pc s) (r_i s) (readPt s) (dataToRead s)
        (writer_out s) (reader_out s))
  | WDone => Disabled
  end.

Definition step_reader (s : state) : outcome :=
  let at_ p :=
    mkState (emptyBuffers s) (fullBuffers s) (buffers s)
      (w_pc s) (w_i s) (writePt s) (dataToWrite s) (w_calls s)
      p (r_i s) (readPt s) (dataToRead s)
      (writer_out s) (reader_out s) in
  match r_pc s with
  | RLoop => Running (at_ (if r_i s <? DATA_LENGTH then RWait else RDone))
  | RWait =>
      if 0 <? fullBuffers s
      then Running (mkState (emptyBuffers s) (fullBuffers s - 1) (buffers s)
        (w_pc s) (w_i s) (writePt s) (dataToWrite s) (w_calls s)
        RLoad (r_i s) (readPt s) (dataToRead s)
        (writer_out s) (reader_out s))
      else Disabled
  | RLoad =>
      if in_bounds (readPt s)
      then match buffers s !! Z.to_nat (readPt s) with
           | Some c =>
               Running (mkState (emptyBuffers s) (fullBuffers s) (buffers s)
                 (w_pc s) (w_i s) (writePt s) (dataToWrite s) (w_calls s)
                 RAdvance (r_i s) (readPt s) c
                 (writer_out s) (reader_out s ++ [(readPt s, c)]))
           | None => Fault
           end
      else Fault
  | RAdvance =>
      Running (mkState (emptyBuffers s) (fullBuffers s) (buffers s)
        (w_pc s) (w_i s) (writePt s) (dataToWrite s) (w_calls s)
        RPost (r_i s) (Z.rem (wrap_int (readPt s + 1)) NUM_TOTAL_BUFFERS)
        (dataToRead s)
        (writer_out s) (reader_out s))
  | RPost =>
      Running (mkState (emptyBuffers s + 1) (fullBuffers s) (buffers s)
        (w_pc s) (w_i s) (writePt s) (dataToWrite s) (w_calls s)
        RProcess (r_i s) (readPt s) (dataToRead s)
        (writer_out s) (reader_out s))
  | RProcess => Running (mkState (emptyBuffers s) (fullBuffers s) (buffers s)
        (w_pc s) (w_i s) (writePt s) (dataToWrite s) (w_calls s)
        RLoop (wrap_int (r_i s + 1)) (readPt s) (dataToRead s)
        (writer_out s) (reader_out s))
  | RDone => Disabled
  end.

Definition step (t : tid) (s : state) : outcome :=
  match t with
  | TWriter => step_writer s
  | TReader => step_reader s
  end.

(** A run under a schedule; it stops at the first step that is not
    enabled or that leaves the array. *)
Fixpoint exec (sched : list tid) (s : state) : outcome :=
  match sched with
  | [] => Running s
  | t :: rest =>
    match step t s with
    | Running s' => exec rest s'
    | o => o
    end
  end.
End Run.

(** The state in which [main] starts the two threads.  [Writer] declares
    [int i, writePt;] and never assigns [writePt] before its first use,
    and [main] never fills [buffers]: [writePt0] is the value the
    variable happens to hold and [junk] the content of the array.
    [dataToWrite] and [dataToRead] are assigned before they are read. *)
Definition init (writePt0 : Z) (junk : nat -> Z) : state :=
  mkState NUM_TOTAL_BUFFERS 0 (map junk (seq 0 (Z.to_nat NUM_TOTAL_BUFFERS)))
    WLoop 0 writePt0 0 0%nat
    RLoop 0 0 0
    [] [].

(** No thread stands between its [sem_wait] and its [sem_post]. *)
Definition quiescent (s : state) : bool :=
  match w_pc s with WStore | WAdvance | WPost => false | _ => true end &&
  match r_pc s with RLoad | RAdvance | RPost => false | _ => true end.

Definition finished (s : state) : bool :=
  match w_pc s, r_pc s with WDone, RDone => true | _, _ => false end.

(** Completed [Put]s and [Take]s: the posts on [fullBuffers] and on
    [emptyBuffers]. *)
Definition puts (s : state) : Z := w_i s.
Definition takes (s : state) : Z :=
  r_i s + match r_pc s with RProcess => 1 | _ => 0 end.

(** The characters written and read, in order. *)
Definition written (s : state) : list Z := map snd (writer_out s).
Definition consumed (s : state) : list Z := map snd (reader_out s).

(** Where a thread stands in its current iteration, as 0 or 1: the
    writer holds a permit of [emptyBuffers], has stored, has advanced
    its cursor, has prepared its character; the reader holds a permit of
    [fullBuffers], has loaded, has advanced its cursor, has posted. *)
Definition w_holds (s : state) : Z :=
  match w_pc s with WStore | WAdvance | WPost => 1 | _ => 0 end.
Definition w_stored (s : state) : Z :=
  match w_pc s with WAdvance | WPost => 1 | _ => 0 end.
Definition w_advanced (s : state) : Z :=
  match w_pc s with WPost => 1 | _ => 0 end.
Definition w_prepared (s : state) : Z :=
  match w_pc s with WWait | WStore | WAdvance | WPost => 1 | _ => 0 end.
Definition r_holds (s : state) : Z :=
  match r_pc s with RLoad | RAdvance | RPost => 1 | _ => 0 end.
Definition r_loaded (s : state) : Z :=
  match r_pc s with RAdvance | RPost | RProcess => 1 | _ => 0 end.
Definition r_advanced (s : state) : Z :=
  match r_pc s with RPost | RProcess => 1 | _ => 0 end.
Definition r_posted (s : state) : Z :=
  match r_pc s with RProcess => 1 | _ => 0 end.

(** Steps the two threads still have to take: six for each iteration and
    one for the loop test that fails. *)
Definition w_todo (s : state) : Z :=
  match w_pc s with
  | WLoop => 6 * (DATA_LENGTH - w_i s) + 1
  | WPrepare => 6 * (DATA_LENGTH - w_i s)
  | WWait => 6 * (DATA_LENGTH - w_i s) - 1
  | WStore => 6 * (DATA_LENGTH - w_i s) - 2
  | WAdvance => 6 * (DATA_LENGTH - w_i s) - 3
  | WPost => 6 * (DATA_LENGTH - w_i s) - 4
  | WDone => 0
  end.

Definition r_todo (s : state) : Z :=
  match r_pc s with
  | RLoop => 6 * (DATA_LENGTH - r_i s) + 1
  | RWait => 6 * (DATA_LENGTH - r_i s)
  | RLoad => 6 * (DATA_LENGTH - r_i s) - 1
  | RAdvance => 6 * (DATA_LENGTH - r_i s) - 2
  | RPost => 6 * (DATA_LENGTH - r_i s) - 3
  | RProcess => 6 * (DATA_LENGTH - r_i s) - 4
  | RDone => 0
  end.

Definition steps_left (s : state) : Z := w_todo s + r_todo s.

(** The counting invariant: the loop counters, the two semaphores, the
    number of lines printed, the reader's cursor and the size of the
    array.  It does not depend on where the writer's cursor started. *)
Record inv_sem (s : state) : Prop := mkInvSem {
  w_i_range : 0 <= w_i s <= DATA_LENGTH;
  w_in_loop :
    match w_pc s with
    | WLoop => True
    | WDone => w_i s = DATA_LENGTH
    | _ => w_i s < DATA_LENGTH
    end;
  r_i_range : 0 <= r_i s <= DATA_LENGTH;
  r_in_loop :
    match r_pc s with
    | RLoop => True
    | RDone => r_i s = DATA_LENGTH
    | _ => r_i s < DATA_LENGTH
    end;
  empty_nonneg : 0 <= emptyBuffers s;
  full_nonneg : 0 <= fullBuffers s;
  empty_eq :
    emptyBuffers s = NUM_TOTAL_BUFFERS - (w_i s + w_holds s) + (r_i s + r_posted s);
  full_eq : fullBuffers s = w_i s - (r_i s + r_holds s + r_posted s);
  w_out_len : Z.of_nat (length (writer_out s)) = w_i s + w_stored s;
  r_out_len : Z.of_nat (length (reader_out s)) = r_i s + r_loaded s;
  read_cursor : readPt s = (r_i s + r_advanced s) mod NUM_TOTAL_BUFFERS;
  buffers_len : length (buffers s) = Z.to_nat NUM_TOTAL_BUFFERS
}.

(** The writer's cursor, when it started at the slot [writePt0]. *)
Definition inv_cur (writePt0 : Z) (s : state) : Prop :=
  writePt s = (writePt0 + w_i s + w_advanced s) mod NUM_TOTAL_BUFFERS.

(** The first [n] lines of a writer whose cursor started at slot 0: the
    [k]-th character prepared goes to slot [k mod NUM_TOTAL_BUFFERS]. *)
Definition produced (random_r : nat -> Z) (n : nat) : list (Z * Z) :=
  map (fun k => (Z.of_nat k mod NUM_TOTAL_BUFFERS, PrepareData (random_r k)))
      (seq 0 n).

(** The data invariant of a run whose writer's cursor started at slot 0:
    both threads have printed a prefix of the same lines, and every
    character stored and not yet loaded is in its slot. *)
Record inv_fifo (random_r : nat -> Z) (s : state) : Prop := mkInvFifo {
  calls_eq : Z.of_nat (w_calls s) = w_i s + w_prepared s;
  data_eq :
    w_prepared s = 1 ->
    dataToWrite s = PrepareData (random_r (Z.to_nat (w_i s)));
  w_out_eq : writer_out s = produced random_r (length (writer_out s));
  r_out_eq : reader_out s = produced random_r (length (reader_out s));
  slots_eq :
    forall k : nat,
      r_i s + r_loaded s <= Z.of_nat k < w_i s + w_stored s ->
      buffers s !! Z.to_nat (Z.of_nat k mod NUM_TOTAL_BUFFERS) =
        Some (PrepareData (random_r k))
}.


End ReaderWriter.

(** * The simulated delay

    [SellTickets], [ProcessData] and [PrepareData] all sleep for
    [500000 + result % 1500000] microseconds, [result] being the number
    [random_r] has just delivered. *)

Definition usleep_arg (result : Z) : Z :=
  wrap_int (500000 + Z.rem result 1500000).

(** * What the sellers print *)

Module SellTicketsOutput.
Import SellTickets.

(** The counts of the lines ["%s sold one (%d left)"], in the order in
    which they were printed. *)
Fixpoint sold_lines (out : list line) : list Z :=
  match out with
  | [] => []
  | SoldOne _ n :: r => n :: sold_lines r
  | NoticedAllSold _ _ :: r => sold_lines r
  end.

(** [T - 1], [T - 2], ... : the first [n] counts below [T]. *)
Definition count_down (T : Z) (n : nat) : list Z :=
  map (fun k => T - 1 - Z.of_nat k) (seq 0 n).

(** The number of lines ["%s sold one"] of seller [t]. *)
Fixpoint sales_of (t : nat) (out : list line) : Z :=
  match out with
  | [] => 0
  | SoldOne u _ :: r => (if Nat.eqb u t then 1 else 0) + sales_of t r
  | NoticedAllSold _ _ :: r => sales_of t r
  end.

(** The counts of the lines ["%s noticed all tickets sold!"] of seller [t]. *)
Fixpoint notices_of (t : nat) (out : list line) : list Z :=
  match out with
  | [] => []
  | SoldOne _ _ :: r => notices_of t r
  | NoticedAllSold u k :: r =>
      if Nat.eqb u t then k :: notices_of t r else notices_of t r
  end.

(** A seller stands between [numTickets--] and [numSoldByThisThread++]. *)
Definition at_inc (w : seller) : Z :=
  match at_pc w with SInc => 1 | _ => 0 end.

(** What the output says about the sellers, in a run that started with
    [T] tickets. *)
Record inv_out (T : Z) (s : state) : Prop := mkInvOut {
  out_sold : sold_lines (output s) = count_down T (Z.to_nat (total_sold s));
  out_sales :
    forall t w, sellers s !! t = Some w ->
      sales_of t (output s) = numSoldByThisThread w;
  out_notices :
    forall t w, sellers s !! t = Some w ->
      notices_of t (output s) =
        if exited w then [numSoldByThisThread w] else []
}.

End SellTicketsOutput.

(** * The whole program of sellTickets.c: [main] and its sellers *)

Module SellTicketsProgram.
Import SellTickets.

(** The points of [main]. *)
Inductive main_pc : Type :=
| MCreate (i : nat)  (* first loop, about to test [i] and call pthread_create *)
| MJoin (i : nat)    (* second loop, about to test [i] and call pthread_join *)
| MAllDone           (* after sem_destroy, free, printf("All done!\n") *)
| MExiting (code : Z)  (* after the error printf, in exit(code): the
                          process has not ended yet *)
| MExit (code : Z).  (* exit(code) has ended the process *)

(** What [main] prints. *)
Inductive main_line : Type :=
| CreateFailed (rc : Z)  (* "ERROR: pthread_create() failed with return code %d" *)
| JoinFailed (rc : Z)    (* "ERROR: pthread_join() failed with a return code %d" *)
| AllDone.               (* "All done!" *)

(** The process: [main], the number of sellers it has created, the
    state the sellers share, and the lines of [main]. *)
Record process : Type := mkProcess {
  main_at : main_pc;
  created : nat;
  shared : state;
  main_out : list main_line
}.

Inductive actor : Type := Main | Seller (t : nat).

Section Process.
(** The number of sellers ([NUM_SELLERS]) and the return codes of the
    calls [pthread_create] and [pthread_join] for each of them. *)
Variable W : nat.
Variable create_rc join_rc : nat -> Z.

(** One step of [main].  A call of [pthread_create] that fails creates
    no thread; [pthread_join] returns at once when it fails and
    otherwise only when the seller has exited.  After a call that
    failed [main] prints its line and calls [exit]; the sellers go on
    until [exit] has ended the process, which is a step of its own. *)
Definition main_step (p : process) : option process :=
  match main_at p with
  | MCreate i =>
      if (i <? W)%nat
      then if create_rc i =? 0
           then Some (mkProcess (MCreate (S i)) (S (created p)) (shared p) (main_out p))
           else Some (mkProcess (MExiting (-1)) (created p) (shared p)
                        (main_out p ++ [CreateFailed (create_rc i)]))
      else Some (mkProcess (MJoin 0) (created p) (shared p) (main_out p))
  | MJoin i =>
      if (i <? W)%nat
      then if join_rc i =? 0
           then match sellers (shared p) !! i with
                | Some w =>
                    if exited w
                    then Some (mkProcess (MJoin (S i)) (created p) (shared p) (main_out p))
                    else None
                | None => None
                end
           else Some (mkProcess (MExiting (-1)) (created p) (shared p)
                        (main_out p ++ [JoinFailed (join_rc i)]))
      else Some (mkProcess MAllDone (created p) (shared p) (main_out p ++ [AllDone]))
  | MAllDone => None
  | MExiting code =>
      Some (mkProcess (MExit code) (created p) (shared p) (main_out p))
  | MExit _ => None
  end.

(** One step of seller [t]: the seller must have been created, and
    the process must not have ended.  A seller steps as before while
    [main] is in [exit]. *)
Definition seller_step (t : nat) (p : process) : option process :=
  match main_at p with
  | MExit _ => None
  | _ =>
      if (t <? created p)%nat
      then match step t (shared p) with
           | Some s' => Some (mkProcess (main_at p) (created p) s' (main_out p))
           | None => None
           end
      else None
  end.

Definition pstep (a : actor) (p : process) : option process :=
  match a with
  | Main => main_step p
  | Seller t => seller_step t p
  end.

Fixpoint pexec (sched : list actor) (p : process) : option process :=
  match sched with
  | [] => Some p
  | a :: rest =>
    match pstep a p with
    | Some p' => pexec rest p'
    | None => None
    end
  end.

(** [main] before its first loop: no seller created yet, the lock
    initialised by [sem_init(&ticketsLock, 0, 1)]. *)
Definition process_init (T : Z) : process :=
  mkProcess (MCreate 0) 0 (init T W) [].

(** The steps of the sellers in a schedule of the process. *)
Fixpoint sellers_of (sched : list actor) : list nat :=
  match sched with
  | [] => []
  | Main :: rest => sellers_of rest
  | Seller t :: rest => t :: sellers_of rest
  end.

(** Steps [main] still has to take when no call fails, and the one
    step that is left once it is in [exit]. *)
Definition main_todo (p : process) : Z :=
  match main_at p with
  | MCreate i => 2 * Z.of_nat W + 2 - Z.of_nat i
  | MJoin i => Z.of_nat W + 1 - Z.of_nat i
  | MAllDone => 0
  | MExiting _ => 1
  | MExit _ => 0
  end.

Definition process_steps_left (p : process) : Z :=
  steps_left (shared p) + main_todo p.

Definition calls_ok (rc : nat -> Z) (n : nat) : Prop :=
  forall j, (j < n)%nat -> rc j = 0.

(** Why [main] is in [exit], or was when the process ended: the first
    call that failed, the sellers created until then, and the line. *)
Definition failed_call (p : process) : Prop :=
  (exists i, (i < W)%nat /\ calls_ok create_rc i /\ create_rc i <> 0 /\
             created p = i /\ main_out p = [CreateFailed (create_rc i)]) \/
  (exists i, (i < W)%nat /\ calls_ok create_rc W /\ calls_ok join_rc i /\
             join_rc i <> 0 /\ created p = W /\
             main_out p = [JoinFailed (join_rc i)]).

(** What holds of [main] at each of its points. *)
Definition main_ok (p : process) : Prop :=
  length (sellers (shared p)) = W /\
  match main_at p with
  | MCreate i =>
      created p = i /\ (i <= W)%nat /\ main_out p = [] /\ calls_ok create_rc i
  | MJoin i =>
      created p = W /\ (i <= W)%nat /\ main_out p = [] /\
      calls_ok create_rc W /\ calls_ok join_rc i /\
      (forall j, (j < i)%nat ->
         exists w, sellers (shared p) !! j = Some w /\ exited w = true)
  | MAllDone =>
      created p = W /\ main_out p = [AllDone] /\
      calls_ok create_rc W /\ calls_ok join_rc W /\
      all_exited (shared p) = true
  | MExiting code => code = -1 /\ failed_call p
  | MExit code => code = -1 /\ failed_call p
  end.

(** [main] has called [exit]. *)
Definition in_exit (p : process) : Prop :=
  exists code, main_at p = MExiting code \/ main_at p = MExit code.
End Process.

(** The program as written. *)
Definition main_process : process := process_init NUM_SELLERS NUM_TICKETS.

End SellTicketsProgram.

(** * What the writer and the reader print *)

Module ReaderWriterOutput.
Import ReaderWriter.

(** The characters of the first [n] calls of [PrepareData]. *)
Definition prepared (random_r : nat -> Z) (n : nat) : list Z :=
  map (fun k => PrepareData (random_r k)) (seq 0 n).

(** The slots of [n] accesses in a row that start at slot [p]. *)
Definition rotation (p : Z) (n : nat) : list Z :=
  map (fun k => (p + Z.of_nat k) mod NUM_TOTAL_BUFFERS) (seq 0 n).

(** The characters the writer prints and the slots the reader prints,
    wherever the writer's cursor started. *)
Record inv_chars (random_r : nat -> Z) (s : state) : Prop := mkInvChars {
  ch_calls : Z.of_nat (w_calls s) = w_i s + w_prepared s;
  ch_data :
    w_prepared s = 1 ->
    dataToWrite s = PrepareData (random_r (Z.to_nat (w_i s)));
  ch_written : written s = prepared random_r (length (writer_out s));
  ch_read_slots : map fst (reader_out s) = rotation 0 (length (reader_out s))
}.

(** The slots the writer prints, when its cursor started at [writePt0]. *)
Definition inv_wslots (writePt0 : Z) (s : state) : Prop :=
  map fst (writer_out s) = rotation writePt0 (length (writer_out s)).

Definition is_letter (c : Z) : Prop := 65 <= c <= 89.

End ReaderWriterOutput.

(** * The whole program of readerWriter.c: [main] and its two threads *)

Module ReaderWriterProgram.
Import ReaderWriter.

(** The points of [main]. *)
Inductive main_pc : Type :=
| MCreateWriter  (* rc = pthread_create(&writer, NULL, Writer, ...) *)
| MCreateReader  (* rc = pthread_create(&reader, NULL, Reader, ...) *)
| MJoinWriter    (* rc = pthread_join(writer, &status) *)
| MJoinReader    (* rc = pthread_join(reader, &status) *)
| MFinish        (* sem_destroy, sem_destroy, free, free, printf("All Done!\n") *)
| MAllDone       (* after the return of main *)
| MExiting (code : Z)  (* after the error printf, in exit(code): the
                          process has not ended yet *)
| MExit (code : Z).  (* exit(code) has ended the process *)

(** What [main] prints. *)
Inductive main_line : Type :=
| CreateWriterFailed (rc : Z)
| CreateReaderFailed (rc : Z)
| JoinWriterFailed (rc : Z)
| JoinReaderFailed (rc : Z)
| AllDone.

(** The return codes of the four calls, in the order of the calls. *)
Record return_codes : Type := mkReturnCodes {
  create_writer_rc : Z;
  create_reader_rc : Z;
  join_writer_rc : Z;
  join_reader_rc : Z
}.

Record process : Type := mkProcess {
  main_at : main_pc;
  writer_created : bool;
  reader_created : bool;
  shared : state;
  main_out : list main_line
}.

Inductive actor : Type := Main | Thread (t : tid).

Inductive poutcome : Type :=
| PRunning (p : process)
| PDisabled
| PFault.

Section Process.
Variable random_r : nat -> Z.
Variable rc : return_codes.

(** One step of [main].  A call of [pthread_create] that fails creates
    no thread; [pthread_join] returns at once when it fails and
    otherwise only when the thread has exited.  After a call that failed
    [main] prints its line and calls [exit]; the threads go on until
    [exit] has ended the process, which is a step of its own. *)
Definition main_step (p : process) : poutcome :=
  let fail l :=
    PRunning (mkProcess (MExiting 1) (writer_created p) (reader_created p)
                (shared p) (main_out p ++ [l])) in
  let goto_ m :=
    PRunning (mkProcess m (writer_created p) (reader_created p)
                (shared p) (main_out p)) in
  match main_at p with
  | MCreateWriter =>
      if create_writer_rc rc =? 0
      then PRunning (mkProcess MCreateReader true (reader_created p)
                       (shared p) (main_out p))
      else fail (CreateWriterFailed (create_writer_rc rc))
  | MCreateReader =>
      if create_reader_rc rc =? 0
      then PRunning (mkProcess MJoinWriter (writer_created p) true
                       (shared p) (main_out p))
      else fail (CreateReaderFailed (create_reader_rc rc))
  | MJoinWriter =>
      if join_writer_rc rc =? 0
      then match w_pc (shared p) with
           | WDone => goto_ MJoinReader
           | _ => PDisabled
           end
      else fail (JoinWriterFailed (join_writer_rc rc))
  | MJoinReader =>
      if join_reader_rc rc =? 0
      then match r_pc (shared p) with
           | RDone => goto_ MFinish
           | _ => PDisabled
           end
      else fail (JoinReaderFailed (join_reader_rc rc))
  | MFinish =>
      PRunning (mkProcess MAllDone (writer_created p) (reader_created p)
                  (shared p) (main_out p ++ [AllDone]))
  | MAllDone => PDisabled
  | MExiting code =>
      PRunning (mkProcess (MExit code) (writer_created p) (reader_created p)
                  (shared p) (main_out p))
  | MExit _ => PDisabled
  end.

Definition thread_created (t : tid) (p : process) : bool :=
  match t with
  | TWriter => writer_created p
  | TReader => reader_created p
  end.

(** One step of a thread: it must have been created, and the process
    must not have ended, by [exit] or by the return of [main].  A thread
    steps as before while [main] is in [exit]. *)
Definition thread_step (t : tid) (p : process) : poutcome :=
  match main_at p with
  | MExit _ => PDisabled
  | MAllDone => PDisabled
  | _ =>
      if thread_created t p
      then match step random_r t (shared p) with
           | Running s' =>
               PRunning (mkProcess (main_at p) (writer_created p)
                           (reader_created p) s' (main_out p))
           | Disabled => PDisabled
           | Fault => PFault
           end
      else PDisabled
  end.

Definition pstep (a : actor) (p : process) : poutcome :=
  match a with
  | Main => main_step p
  | Thread t => thread_step t p
  end.

Fixpoint pexec (sched : list actor) (p : process) : poutcome :=
  match sched with
  | [] => PRunning p
  | a :: rest =>
    match pstep a p with
    | PRunning p' => pexec rest p'
    | o => o
    end
  end.

(** Steps [main] still has to take when no call fails, and the one
    step that is left once it is in [exit]. *)
Definition main_todo (p : process) : Z :=
  match main_at p with
  | MCreateWriter => 5
  | MCreateReader => 4
  | MJoinWriter => 3
  | MJoinReader => 2
  | MFinish => 1
  | MAllDone => 0
  | MExiting _ => 1
  | MExit _ => 0
  end.

Definition process_steps_left (p : process) : Z :=
  steps_left (shared p) + main_todo p.

(** Why [main] is in [exit], or was when the process ended: the first
    of the four calls that failed, and the line. *)
Definition failed_call (p : process) : Prop :=
  (create_writer_rc rc <> 0 /\ writer_created p = false /\
   reader_created p = false /\
   main_out p = [CreateWriterFailed (create_writer_rc rc)]) \/
  (create_writer_rc rc = 0 /\ create_reader_rc rc <> 0 /\
   reader_created p = false /\
   main_out p = [CreateReaderFailed (create_reader_rc rc)]) \/
  (create_writer_rc rc = 0 /\ create_reader_rc rc = 0 /\
   join_writer_rc rc <> 0 /\
   main_out p = [JoinWriterFailed (join_writer_rc rc)]) \/
  (create_writer_rc rc = 0 /\ create_reader_rc rc = 0 /\
   join_writer_rc rc = 0 /\ join_reader_rc rc <> 0 /\
   w_pc (shared p) = WDone /\
   main_out p = [JoinReaderFailed (join_reader_rc rc)]).

(** What holds of [main] at each of its points. *)
Definition main_ok (p : process) : Prop :=
  match main_at p with
  | MCreateWriter =>
      writer_created p = false /\ reader_created p = false /\ main_out p = []
  | MCreateReader =>
      writer_created p = true /\ reader_created p = false /\ main_out p = [] /\
      create_writer_rc rc = 0
  | MJoinWriter =>
      writer_created p = true /\ reader_created p = true /\ main_out p = [] /\
      create_writer_rc rc = 0 /\ create_reader_rc rc = 0
  | MJoinReader =>
      writer_created p = true /\ reader_created p = true /\ main_out p = [] /\
      create_writer_rc rc = 0 /\ create_reader_rc rc = 0 /\
      join_writer_rc rc = 0 /\ w_pc (shared p) = WDone
  | MFinish =>
      main_out p = [] /\ rc = mkReturnCodes 0 0 0 0 /\
      finished (shared p) = true
  | MAllDone =>
      main_out p = [AllDone] /\ rc = mkReturnCodes 0 0 0 0 /\
      finished (shared p) = true
  | MExiting code => code = 1 /\ failed_call p
  | MExit code => code = 1 /\ failed_call p
  end.

(** [main] has called [exit]. *)
Definition in_exit (p : process) : Prop :=
  exists code, main_at p = MExiting code \/ main_at p = MExit code.

(** A thread that [main] has not created stands at the entry of its
    function and has printed nothing. *)
Definition not_started (p : process) : Prop :=
  (writer_created p = false ->
     w_pc (shared p) = WLoop /\ writer_out (shared p) = []) /\
  (reader_created p = false ->
     r_pc (shared p) = RLoop /\ reader_out (shared p) = []).
End Process.

(** The threads' steps in a schedule of the process. *)
Fixpoint threads_of (sched : list actor) : list tid :=
  match sched with
  | [] => []
  | Main :: rest => threads_of rest
  | Thread t :: rest => t :: threads_of rest
  end.

(** [main] before it creates the writer, the two semaphores initialised. *)
Definition process_init (writePt0 : Z) (junk : nat -> Z) : process :=
  mkProcess MCreateWriter false false (init writePt0 junk) [].

End ReaderWriterProgram.

(** * Facts about [int] and about sums *)

Lemma wrap_int_id z : INT_MIN <= z <= INT_MAX -> wrap_int z = z.
Proof.
  unfold INT_MIN, INT_MAX, wrap_int. intros H.
  rewrite Z.mod_small; lia.
Qed.

Section SumZ.
Context {A : Type}.
Variable f : A -> Z.

Lemma sumZ_insert (l : list A) (i : nat) (x y : A) :
  l !! i = Some x -> sumZ f (<[i := y]> l) = sumZ f l - f x + f y.
Proof.
  revert i. induction l as [|a l IH]; intros [|i] H; simpl in *;
    try discriminate.
  - injection H as ->. lia.
  - rewrite (IH i H). lia.
Qed.

Lemma sumZ_replicate (n : nat) (x : A) :
  sumZ f (replicate n x) = Z.of_nat n * f x.
Proof.
  induction n as [|n IH]; [reflexivity|].
  change (f x + sumZ f (replicate n x) = Z.of_nat (S n) * f x).
  rewrite IH. lia.
Qed.

Lemma sumZ_ext (g : A -> Z) (l : list A) :
  (forall i x, l !! i = Some x -> f x = g x) -> sumZ f l = sumZ g l.
Proof.
  induction l as [|a l IH]; intros H; simpl; [reflexivity|].
  rewrite (H 0%nat a eq_refl), IH; [reflexivity|].
  intros i x Hi. apply (H (S i) x Hi).
Qed.

Lemma nonneg_on_tail a l : nonneg_on f (a :: l) -> 0 <= f a /\ nonneg_on f l.
Proof.
  intros H. split; [apply (H 0%nat a eq_refl)|].
  intros i x Hi. apply (H (S i) x Hi).
Qed.

Lemma sumZ_zero (l : list A) :
  (forall i x, l !! i = Some x -> f x = 0) -> sumZ f l = 0.
Proof.
  induction l as [|a l IH]; intros H; simpl; [reflexivity|].
  rewrite (H 0%nat a eq_refl), IH; [reflexivity|].
  intros i x Hi. apply (H (S i) x Hi).
Qed.

Lemma sumZ_nonneg (l : list A) : nonneg_on f l -> 0 <= sumZ f l.
Proof.
  induction l as [|a l IH]; simpl; [lia|].
  intros H. apply nonneg_on_tail in H as [Ha Hl]. specialize (IH Hl). lia.
Qed.

Lemma sumZ_elem_le (l : list A) (i : nat) (x : A) :
  nonneg_on f l -> l !! i = Some x -> f x <= sumZ f l.
Proof.
  revert i. induction l as [|a l IH]; intros [|i] Hn H; simpl in *;
    try discriminate; apply nonneg_on_tail in Hn as [Ha Hl].
  - injection H as ->. pose proof (sumZ_nonneg l Hl). lia.
  - specialize (IH i Hl H). lia.
Qed.

Lemma sumZ_two_le (l : list A) (i j : nat) (x y : A) :
  nonneg_on f l -> i <> j -> l !! i = Some x -> l !! j = Some y ->
  f x + f y <= sumZ f l.
Proof.
  revert i j. induction l as [|a l IH]; intros [|i] [|j] Hn Hij Hi Hj;
    simpl in *; try discriminate; try congruence;
    apply nonneg_on_tail in Hn as [Ha Hl].
  - injection Hi as ->. pose proof (sumZ_elem_le l j y Hl Hj). lia.
  - injection Hj as ->. pose proof (sumZ_elem_le l i x Hl Hi). lia.
  - assert (i <> j) as Hne by congruence.
    specialize (IH i j Hl Hne Hi Hj). lia.
Qed.

Lemma sumZ_pos_elem (l : list A) :
  0 < sumZ f l -> exists i x, l !! i = Some x /\ 0 < f x.
Proof.
  induction l as [|a l IH]; simpl; [lia|]. intros H.
  destruct (Z_lt_dec 0 (f a)) as [Ha|Ha].
  - exists 0%nat, a. auto.
  - destruct IH as (i & x & Hi & Hx); [lia|]. exists (S i), x. auto.
Qed.

Lemma sumZ_zero_elem (l : list A) (i : nat) (x : A) :
  nonneg_on f l -> sumZ f l = 0 -> l !! i = Some x -> f x = 0.
Proof.
  intros Hn H0 Hi. pose proof (sumZ_elem_le l i x Hn Hi).
  specialize (Hn i x Hi). lia.
Qed.
End SumZ.

Lemma forallb_lookup {A : Type} (p : A -> bool) (l : list A) :
  forallb p l = true <-> (forall i x, l !! i = Some x -> p x = true).
Proof.
  induction l as [|a l IH]; simpl.
  - split; [intros _ i x H; discriminate | reflexivity].
  - rewrite andb_true_iff, IH. split.
    + intros [Ha Hl] [|i] x H; simpl in H; [congruence | eauto].
    + intros H. split; [apply (H 0%nat a eq_refl) | intros i x Hi; apply (H (S i) x Hi)].
Qed.

Lemma forallb_false_lookup {A : Type} (p : A -> bool) (l : list A) :
  forallb p l = false -> exists i x, l !! i = Some x /\ p x = false.
Proof.
  induction l as [|a l IH]; simpl; [discriminate|].
  destruct (p a) eqn:Ha; simpl.
  - intros H. destruct (IH H) as (i & x & Hi & Hx). exists (S i), x. auto.
  - intros _. exists 0%nat, a. auto.
Qed.

(** * The ticket sellers *)

Section SellTicketsFacts.
Import SellTickets.

Lemma in_cs_nonneg (l : list seller) : nonneg_on in_cs l.
Proof. intros i [p d k] _. unfold in_cs. destruct p; simpl; lia. Qed.

Lemma todo_nonneg (l : list seller) : nonneg_on todo l.
Proof. intros i [p d k] _. unfold todo. destruct p, d; simpl; lia. Qed.

Lemma decrements_nonneg (n : Z) (l : list seller) :
  (forall t w, l !! t = Some w -> seller_ok n w) -> nonneg_on decrements l.
Proof.
  intros H i w Hi. destruct (H i w Hi) as (Hk & _).
  unfold decrements. destruct (at_pc w); lia.
Qed.

Lemma reported_app (o : list line) (l : line) :
  reported (o ++ [l]) = reported o + reported [l].
Proof.
  induction o as [|a o IH]; simpl; [lia|].
  destruct a; rewrite IH; simpl; lia.
Qed.

(** Two different sellers are never both inside the critical section. *)
Lemma holders_exclusive (T : Z) (s : state) (t u : nat) (w w' : seller) :
  inv T s -> sellers s !! t = Some w -> sellers s !! u = Some w' ->
  in_cs w = 1 -> in_cs w' = 1 -> t = u.
Proof.
  intros I Ht Hu Hw Hw'. destruct (decide (t = u)) as [|Hne]; [assumption|].
  pose proof (sumZ_two_le in_cs (sellers s) t u w w'
                (in_cs_nonneg _) Hne Ht Hu) as Hle.
  pose proof (inv_lock T s I). pose proof (inv_holders T s I).
  unfold holders in *. lia.
Qed.

Lemma sold_le_total (T : Z) (s : state) (t : nat) (w : seller) :
  inv T s -> sellers s !! t = Some w ->
  decrements w + numTickets s <= T.
Proof.
  intros I Ht.
  pose proof (sumZ_elem_le decrements (sellers s) t w
                (decrements_nonneg _ _ (inv_sellers T s I)) Ht).
  pose proof (inv_total T s I). unfold total_decrements in *. lia.
Qed.

Lemma decrements_mk (p : pc) (d : bool) (k : Z) :
  decrements (mkSeller p d k) = k + match p with SInc => 1 | _ => 0 end.
Proof. reflexivity. Qed.

Lemma inv_step (T : Z) (t : nat) (s s' : state) :
  T <= INT_MAX -> inv T s -> step t s = Some s' -> inv T s'.
Proof.
  intros HT I Hstep.
  pose proof I as [Hr Hl Hh Ht Hs Hrep Hout].
  unfold step in Hstep.
  destruct (sellers s !! t) as [w|] eqn:Hw; [|discriminate].
  pose proof (Hs t w Hw) as (Hsold & Hdone & Hpc).
  pose proof (sold_le_total T s t w I Hw) as Hle.
  assert (Hlt : (t < length (sellers s))%nat) by (eapply lookup_lt_Some; eauto).
  unfold holders, total_decrements in *.
  destruct w as [p d k]; unfold decrements in Hle; simpl in *.
  destruct p; simpl in *;
    [ | | destruct (0 <? ticketsLock s) eqn:Hlk;
          [apply Z.ltb_lt in Hlk | discriminate]
      | destruct (numTickets s =? 0) eqn:Hz;
          [apply Z.eqb_eq in Hz | apply Z.eqb_neq in Hz]
      | | | | | discriminate ];
    injection Hstep as <-;
    try rewrite (wrap_int_id (numTickets s - 1)) by (unfold INT_MIN; lia);
    try rewrite (wrap_int_id (k + 1)) by (unfold INT_MIN; lia).
  all: constructor; unfold holders, total_decrements; simpl;
    rewrite ?(sumZ_insert _ _ _ _ _ Hw); rewrite ?reported_app;
    unfold goto; cbn; rewrite ?decrements_mk; try lia.
  all: try (destruct d; cbn; lia).
  all: try (apply Forall_app; split; [assumption|];
            constructor; [simpl; lia | constructor]).
  all: try assumption.
  all: intros t' w' H'; destruct (decide (t = t')) as [<-|Hne];
    [ rewrite list_lookup_insert_eq in H' by assumption;
      injection H' as <-; unfold seller_ok; simpl;
      repeat split; try lia; try congruence; try (destruct d; simpl; auto; lia)
    | rewrite list_lookup_insert_ne in H' by congruence ].
  all: try (exact (Hs t' w' H')).
  (* [numTickets--]: no other seller is at a point that depends on it *)
  destruct (Hs t' w' H') as (Hk' & Hd' & Hpc').
  assert (in_cs w' <> 1) as Hout'.
  { intros Hin. apply Hne.
    apply (holders_exclusive T s t t' _ w' I Hw H'); [reflexivity | exact Hin]. }
  destruct w' as [p' d' k']; unfold seller_ok, in_cs in *; simpl in *.
  repeat split; try lia.
  - intros ->. specialize (Hd' eq_refl). lia.
  - destruct p'; try exact Hpc'; congruence.
Qed.

(** Every step is one of the [steps_left], and never adds a ticket. *)
Lemma step_measure (T : Z) (t : nat) (s s' : state) :
  T <= INT_MAX -> inv T s -> step t s = Some s' ->
  steps_left s' = steps_left s - 1 /\ numTickets s' <= numTickets s.
Proof.
  intros HT I Hstep.
  pose proof I as [Hr Hl Hh Ht Hs Hrep Hout].
  unfold step in Hstep.
  destruct (sellers s !! t) as [w|] eqn:Hw; [|discriminate].
  pose proof (Hs t w Hw) as (Hsold & Hdone & Hpc).
  unfold steps_left.
  destruct w as [p d k]; simpl in *.
  destruct p; simpl in *;
    [ | | destruct (0 <? ticketsLock s) eqn:Hlk; [|discriminate]
      | destruct (numTickets s =? 0) eqn:Hz;
          [apply Z.eqb_eq in Hz | apply Z.eqb_neq in Hz]
      | | | | | discriminate ];
    injection Hstep as <-;
    try rewrite (wrap_int_id (numTickets s - 1)) by (unfold INT_MIN; lia);
    simpl; rewrite (sumZ_insert _ _ _ _ _ Hw); unfold goto; cbn;
    try lia.
  all: destruct d; cbn; try lia; try congruence.
  all: specialize (Hdone eq_refl); lia.
Qed.

Lemma init_inv (T : Z) (W : nat) : 0 <= T -> inv T (init T W).
Proof.
  intros HT. constructor; unfold holders, total_decrements; simpl;
    rewrite ?sumZ_replicate; cbn; rewrite ?decrements_mk; try lia.
  - intros t w H. apply lookup_replicate in H as [-> _].
    unfold seller_ok; simpl. repeat split; [lia | discriminate].
  - constructor.
Qed.

Lemma init_steps_left (T : Z) (W : nat) :
  steps_left (init T W) = 7 * T + 7 * Z.of_nat W.
Proof. unfold steps_left; simpl. rewrite sumZ_replicate. cbn. lia. Qed.

Lemma exec_inv (T : Z) (sched : list nat) (s s' : state) :
  T <= INT_MAX -> inv T s -> exec sched s = Some s' ->
  inv T s' /\
  steps_left s' = steps_left s - Z.of_nat (length sched) /\
  numTickets s' <= numTickets s.
Proof.
  intros HT. revert s. induction sched as [|t sched IH]; intros s I H; simpl in H.
  - injection H as <-. simpl. split; [assumption | split; lia].
  - destruct (step t s) as [s1|] eqn:Hstep; [|discriminate].
    pose proof (inv_step T t s s1 HT I Hstep) as I1.
    destruct (step_measure T t s s1 HT I Hstep) as [Hm Hn].
    destruct (IH s1 I1 H) as (I' & Hm' & Hn').
    split; [assumption | split; [|lia]].
    rewrite Hm', Hm. simpl length. lia.
Qed.

Lemma steps_left_nonneg (T : Z) (s : state) : inv T s -> 0 <= steps_left s.
Proof.
  intros I. pose proof (inv_range T s I).
  pose proof (sumZ_nonneg todo (sellers s) (todo_nonneg _)).
  unfold steps_left. lia.
Qed.

(** As long as a seller has not exited, some seller can take a step:
    the one inside the critical section if there is one, and any
    other one if the lock is free. *)
Lemma progress (T : Z) (s : state) :
  inv T s -> all_exited s = false -> exists t s', step t s = Some s'.
Proof.
  intros I Hex.
  pose proof (inv_lock T s I) as Hl. pose proof (inv_holders T s I) as Hh.
  destruct (Z_lt_dec 0 (holders s)) as [Hpos|Hnone].
  - destruct (sumZ_pos_elem in_cs (sellers s) Hpos) as (t & w & Ht & Hin).
    exists t. unfold step. rewrite Ht.
    destruct w as [p d k]; unfold in_cs in Hin; simpl in *.
    destruct p; try lia; try (eexists; reflexivity).
    destruct (numTickets s =? 0); eexists; reflexivity.
  - pose proof (sumZ_nonneg in_cs (sellers s) (in_cs_nonneg _)) as Hge.
    unfold holders in *.
    assert (ticketsLock s = 1) as Hfree by lia.
    destruct (forallb_false_lookup exited (sellers s) Hex) as (t & w & Ht & Hw).
    exists t. unfold step. rewrite Ht, Hfree.
    destruct w as [p d k]; unfold exited in Hw; simpl in *.
    destruct p; try discriminate; try (eexists; reflexivity).
    destruct (numTickets s =? 0); eexists; reflexivity.
Qed.

(** Once every seller has exited. *)
Lemma all_exited_final (T : Z) (s : state) :
  inv T s -> all_exited s = true ->
  steps_left s = 7 * numTickets s /\
  total_sold s = T - numTickets s /\
  reported (output s) = total_sold s /\
  (sellers s <> [] -> numTickets s = 0) /\
  (forall t, step t s = None).
Proof.
  intros I Hex.
  pose proof (proj1 (forallb_lookup exited (sellers s)) Hex) as Hall.
  assert (forall i w, sellers s !! i = Some w -> at_pc w = SDone) as Hpc.
  { intros i w Hi. specialize (Hall i w Hi). unfold exited in Hall.
    destruct (at_pc w); congruence. }
  assert (sumZ todo (sellers s) = 0) as Htodo.
  { apply sumZ_zero. intros i w Hi. unfold todo. rewrite (Hpc i w Hi). reflexivity. }
  assert (sumZ decrements (sellers s) = total_sold s) as Hdec.
  { apply sumZ_ext. intros i w Hi. unfold decrements. rewrite (Hpc i w Hi). lia. }
  assert (sumZ exit_sold (sellers s) = total_sold s) as Hrep.
  { apply sumZ_ext. intros i w Hi. unfold exit_sold, exited.
    rewrite (Hpc i w Hi). reflexivity. }
  pose proof (inv_total T s I) as Ht. unfold total_decrements in Ht.
  repeat split.
  - unfold steps_left. lia.
  - lia.
  - rewrite (inv_reported T s I). exact Hrep.
  - destruct (sellers s) as [|w l] eqn:Hs; [congruence|]. intros _.
    assert (sellers s !! 0%nat = Some w) as H0 by (rewrite Hs; reflexivity).
    rewrite <- Hs in Hpc.
    destruct (inv_sellers T s I 0%nat w H0) as (_ & Hd & Hp).
    rewrite (Hpc 0%nat w H0) in Hp. exact (Hd Hp).
  - intros t. unfold step. destruct (sellers s !! t) as [w|] eqn:Hw; [|reflexivity].
    rewrite (Hpc t w Hw). reflexivity.
Qed.

(** A seller at a given point of its code takes the step of that point. *)
Lemma step_lookup (t : nat) (s : state) (w : seller) :
  sellers s !! t = Some w ->
  step t s =
  match at_pc w with
  | SLoop =>
      Some (mkState (numTickets s) (ticketsLock s)
              (<[t := goto (if done w then SExit else SDelay) w]> (sellers s))
              (output s))
  | SDelay =>
      Some (mkState (numTickets s) (ticketsLock s)
              (<[t := goto SWait w]> (sellers s)) (output s))
  | SWait =>
      if 0 <? ticketsLock s
      then Some (mkState (numTickets s) (ticketsLock s - 1)
                   (<[t := goto SCheck w]> (sellers s)) (output s))
      else None
  | SCheck =>
      if numTickets s =? 0
      then Some (mkState (numTickets s) (ticketsLock s)
                   (<[t := mkSeller SPost true (numSoldByThisThread w)]> (sellers s))
                   (output s))
      else Some (mkState (numTickets s) (ticketsLock s)
                   (<[t := goto SDec w]> (sellers s)) (output s))
  | SDec =>
      Some (mkState (wrap_int (numTickets s - 1)) (ticketsLock s)
              (<[t := goto SInc w]> (sellers s)) (output s))
  | SInc =>
      Some (mkState (numTickets s) (ticketsLock s)
              (<[t := mkSeller SPost (done w) (wrap_int (numSoldByThisThread w + 1))]>
                 (sellers s))
              (output s ++ [SoldOne t (numTickets s)]))
  | SPost =>
      Some (mkState (numTickets s) (ticketsLock s + 1)
              (<[t := goto SLoop w]> (sellers s)) (output s))
  | SExit =>
      Some (mkState (numTickets s) (ticketsLock s)
              (<[t := goto SDone w]> (sellers s))
              (output s ++ [NoticedAllSold t (numSoldByThisThread w)]))
  | SDone => None
  end.
Proof. intros H. unfold step. rewrite H. reflexivity. Qed.

(** A seller waiting for a lock that is taken cannot step. *)
Lemma wait_blocked (s : state) (u : nat) (w : seller) :
  ticketsLock s = 0 -> sellers s !! u = Some w -> at_pc w = SWait ->
  step u s = None.
Proof.
  intros Hl Hu Hpc. rewrite (step_lookup u s w Hu), Hpc, Hl. reflexivity.
Qed.

Ltac seller_step :=
  match goal with
  | |- context [step ?t ?s] =>
      erewrite (step_lookup t s);
      [ | simpl; first [ eassumption
                       | apply list_lookup_insert_eq; rewrite ?length_insert; assumption ] ];
      unfold goto; simpl; rewrite ?list_insert_insert_eq
  end.

(** C2: the critical section of a seller, entered with the lock free.
    With [numTickets == 0] the seller leaves the count as it is, sets
    [done] and, back at the loop test, leaves the loop.  Otherwise it
    decrements the count by exactly 1, counts the sale and prints the
    new count.  In both cases the lock is taken by the first step and
    stays taken until the last one gives it back, and a seller waiting
    for a taken lock cannot step. *)
Theorem C2_try_decrement (s : state) (t : nat) (w : seller) :
  sellers s !! t = Some w -> at_pc w = SWait -> ticketsLock s = 1 ->
  0 <= numTickets s <= INT_MAX -> 0 <= numSoldByThisThread w < INT_MAX ->
  (numTickets s = 0 ->
     exec [t; t; t] s =
       Some (mkState 0 1
               (<[t := mkSeller SLoop true (numSoldByThisThread w)]> (sellers s))
               (output s)) /\
     lock_trace [t; t; t] s = [0; 0; 1] /\
     exec [t; t; t; t] s =
       Some (mkState 0 1
               (<[t := mkSeller SExit true (numSoldByThisThread w)]> (sellers s))
               (output s))) /\
  (numTickets s <> 0 ->
     exec [t; t; t; t; t] s =
       Some (mkState (numTickets s - 1) 1
               (<[t := mkSeller SLoop (done w) (numSoldByThisThread w + 1)]> (sellers s))
               (output s ++ [SoldOne t (numTickets s - 1)])) /\
     lock_trace [t; t; t; t; t] s = [0; 0; 0; 0; 1]) /\
  (forall s' u w', ticketsLock s' = 0 -> sellers s' !! u = Some w' ->
                   at_pc w' = SWait -> step u s' = None).
Proof.
  intros Hw Hpc Hlock Hn Hk.
  assert (Hlt : (t < length (sellers s))%nat) by (eapply lookup_lt_Some; eauto).
  destruct s as [n L l o], w as [p d k]; simpl in *; subst p L.
  split; [|split].
  - intros ->. unfold exec, lock_trace.
    repeat seller_step. auto.
  - intros Hnz. apply Z.eqb_neq in Hnz. unfold exec, lock_trace.
    seller_step. seller_step. rewrite Hnz.
    repeat seller_step.
    rewrite !wrap_int_id by (unfold INT_MIN, INT_MAX in *; lia). auto.
  - intros s' u w'. apply wait_blocked.
Qed.

Lemma C2_try_decrement_witness :
  exec [0; 0; 0; 0; 0]%nat (mkState 35 1 [mkSeller SWait false 0] []) =
    Some (mkState 34 1 [mkSeller SLoop false 1] [SoldOne 0 34]) /\
  lock_trace [0; 0; 0; 0; 0]%nat (mkState 35 1 [mkSeller SWait false 0] []) =
    [0; 0; 0; 0; 1].
Proof.
  refine (proj1 (proj2
    (C2_try_decrement (mkState 35 1 [mkSeller SWait false 0] []) 0%nat
       (mkSeller SWait false 0) eq_refl eq_refl eq_refl _ _)) _).
  - unfold INT_MAX; simpl; lia.
  - unfold INT_MAX; simpl; lia.
  - simpl; lia.
Defined.

(** When the lock is free, every decrement has been counted. *)
Lemma free_lock_counted (T : Z) (s : state) :
  inv T s -> ticketsLock s = 1 -> total_decrements s = total_sold s.
Proof.
  intros I Hfree. pose proof (inv_holders T s I) as Hh. unfold holders in Hh.
  apply sumZ_ext. intros i w Hi.
  assert (in_cs w = 0) as Hout.
  { apply (sumZ_zero_elem in_cs (sellers s) i w (in_cs_nonneg _)); [lia | exact Hi]. }
  unfold decrements, in_cs in *. destruct (at_pc w); lia.
Qed.

(** C4: in a run that started with [T] tickets, [numTickets] is never
    negative and never above [T], no continuation of the run raises it,
    and the decrements performed by all sellers add up to [T] minus
    [numTickets]; whenever the lock is free the sellers' own counts
    [numSoldByThisThread] add up to it as well. *)
Theorem C4_counter_invariant (T : Z) (W : nat) (sched sched' : list nat)
    (s s' : state) :
  0 <= T <= INT_MAX ->
  exec sched (init T W) = Some s -> exec sched' s = Some s' ->
  0 <= numTickets s <= T /\
  numTickets s' <= numTickets s /\
  total_decrements s = T - numTickets s /\
  (ticketsLock s = 1 -> total_sold s = T - numTickets s).
Proof.
  intros [HT0 HT] H H'.
  destruct (exec_inv T sched _ s HT (init_inv T W HT0) H) as (I & _ & _).
  destruct (exec_inv T sched' s s' HT I H') as (_ & _ & Hmono).
  pose proof (inv_total T s I) as Ht.
  repeat split; try (apply (inv_range T s I)); try lia.
  intros Hfree. rewrite <- (free_lock_counted T s I Hfree). lia.
Qed.

Lemma C4_counter_invariant_witness :
  exists s s',
    exec [0; 0; 0; 0; 0; 0]%nat main_init = Some s /\
    exec [0; 1; 1]%nat s = Some s' /\
    numTickets s = 34 /\ numTickets s' <= numTickets s /\
    total_decrements s = 35 - numTickets s.
Proof.
  eexists. eexists.
  split; [vm_compute; reflexivity|]. split; [vm_compute; reflexivity|].
  split; [reflexivity|].
  refine ((fun H => conj (proj1 (proj2 H)) (proj1 (proj2 (proj2 H))))
            (C4_counter_invariant 35 4 [0; 0; 0; 0; 0; 0]%nat [0; 1; 1]%nat _ _ _ _ _)).
  - unfold INT_MAX; lia.
  - vm_compute; reflexivity.
  - vm_compute; reflexivity.
Defined.

Lemma step_length (t : nat) (s s' : state) :
  step t s = Some s' -> length (sellers s') = length (sellers s).
Proof.
  unfold step. destruct (sellers s !! t) as [w|]; [|discriminate].
  destruct (at_pc w);
    repeat match goal with
           | |- context [if ?c then _ else _] => destruct c
           end;
    intros H; try discriminate; injection H as <-; simpl; apply length_insert.
Qed.

Lemma exec_length (sched : list nat) (s s' : state) :
  exec sched s = Some s' -> length (sellers s') = length (sellers s).
Proof.
  revert s. induction sched as [|t sched IH]; intros s H; simpl in H.
  - congruence.
  - destruct (step t s) as [s1|] eqn:Hs; [|discriminate].
    rewrite (IH s1 H). exact (step_length t s s1 Hs).
Qed.

(** A run of [W] sellers on [T] tickets: no count is ever negative, the
    run takes at most [7 * T + 7 * W] steps, it can go on as long as a
    seller has not exited, and once every seller has exited it took
    exactly that many steps and the counts add up to [T]. *)
Lemma sell_out (T : Z) (W : nat) (sched : list nat) (s : state) :
  0 <= T <= INT_MAX -> exec sched (init T W) = Some s ->
  inv T s /\
  Z.of_nat (length sched) <= 7 * T + 7 * Z.of_nat W /\
  (all_exited s = false -> exists t s', step t s = Some s') /\
  (all_exited s = true ->
     Z.of_nat (length sched) = 7 * (T - numTickets s) + 7 * Z.of_nat W /\
     total_sold s = T - numTickets s /\
     reported (output s) = total_sold s /\
     (W <> 0%nat -> numTickets s = 0)).
Proof.
  intros [HT0 HT] H.
  destruct (exec_inv T sched _ s HT (init_inv T W HT0) H) as (I & Hm & _).
  rewrite init_steps_left in Hm. pose proof (steps_left_nonneg T s I) as Hge.
  split; [exact I|]. split; [lia|]. split; [apply (progress T s I)|].
  intros Hex. destruct (all_exited_final T s I Hex) as (Hl & Hsold & Hrep & Hz & _).
  repeat split; try assumption; try lia.
  intros HW. apply Hz. intros Hnil.
  pose proof (exec_length _ _ _ H) as Hlen. simpl in Hlen.
  rewrite length_replicate in Hlen.
  rewrite Hnil in Hlen. simpl in Hlen. congruence.
Qed.

(** C5: the program as written, 35 tickets and 4 sellers.  In every run
    no seller's count is negative and [numTickets] is not negative; the
    run takes at most 273 steps and can go on as long as a seller has
    not exited; once the four sellers have exited it took exactly 273
    steps, [numTickets] is 0, the four counts add up to 35 and so do the
    counts the sellers printed. *)
Theorem C5_all_tickets_sold (sched : list nat) (s : state) :
  exec sched main_init = Some s ->
  (forall t w, sellers s !! t = Some w -> 0 <= numSoldByThisThread w) /\
  0 <= numTickets s /\
  (length sched <= 273)%nat /\
  (all_exited s = false -> exists t s', step t s = Some s') /\
  (all_exited s = true ->
     length sched = 273%nat /\ numTickets s = 0 /\
     total_sold s = 35 /\ reported (output s) = 35).
Proof.
  intros H.
  destruct (sell_out NUM_TICKETS NUM_SELLERS sched s) as (I & Hlen & Hprog & Hfin);
    [unfold NUM_TICKETS, INT_MAX; lia | exact H |].
  unfold NUM_TICKETS, NUM_SELLERS in *.
  split; [|split; [|split; [|split]]].
  - intros t w Hw. apply (inv_sellers _ s I t w Hw).
  - apply (inv_range _ s I).
  - lia.
  - exact Hprog.
  - intros Hex. destruct (Hfin Hex) as (Hn & Hsold & Hrep & Hz).
    specialize (Hz ltac:(discriminate)). rewrite Hz in *. lia.
Qed.

Lemma C5_all_tickets_sold_witness :
  exists s,
    exec (replicate 252 0 ++ replicate 7 1 ++ replicate 7 2 ++ replicate 7 3)%nat
      main_init = Some s /\
    all_exited s = true /\ numTickets s = 0 /\ total_sold s = 35.
Proof.
  eexists. split; [vm_compute; reflexivity|]. split; [vm_compute; reflexivity|].
  refine ((fun H => conj (proj1 (proj2 H)) (proj1 (proj2 (proj2 H))))
    (proj2 (proj2 (proj2 (proj2
       (C5_all_tickets_sold
          (replicate 252 0 ++ replicate 7 1 ++ replicate 7 2 ++ replicate 7 3)%nat
          _ _)))) _)).
  - vm_compute; reflexivity.
  - vm_compute; reflexivity.
Defined.

(** C7: with no ticket to begin with, in every run [numTickets] stays 0,
    every seller's count stays 0, no seller is ever at [numTickets--] or
    at [numSoldByThisThread++], a seller that tests [numTickets] sets
    [done] and changes nothing else, and a seller that leaves the
    critical section has [done] set.  The run takes at most seven steps
    per seller, can go on as long as a seller has not exited, and once
    all have exited it took exactly seven steps per seller and the
    counts printed add up to 0. *)
Theorem C7_no_tickets (W : nat) (sched : list nat) (s : state) :
  exec sched (init 0 W) = Some s ->
  numTickets s = 0 /\
  (forall t w, sellers s !! t = Some w ->
     numSoldByThisThread w = 0 /\ at_pc w <> SDec /\ at_pc w <> SInc /\
     (at_pc w = SPost -> done w = true) /\
     (at_pc w = SCheck ->
        step t s = Some (mkState 0 (ticketsLock s)
                           (<[t := mkSeller SPost true 0]> (sellers s)) (output s)))) /\
  (length sched <= 7 * W)%nat /\
  (all_exited s = false -> exists t s', step t s = Some s') /\
  (all_exited s = true ->
     length sched = (7 * W)%nat /\ reported (output s) = 0).
Proof.
  intros H.
  destruct (sell_out 0 W sched s) as (I & Hlen & Hprog & Hfin);
    [unfold INT_MAX; lia | exact H |].
  pose proof (inv_range 0 s I) as Hr.
  assert (numTickets s = 0) as Hz by lia.
  pose proof (inv_total 0 s I) as Ht. unfold total_decrements in Ht.
  split; [exact Hz|]. split; [|split; [lia|split; [exact Hprog|]]].
  - intros t w Hw.
    pose proof (sumZ_zero_elem decrements (sellers s) t w
                  (decrements_nonneg _ _ (inv_sellers 0 s I)) ltac:(lia) Hw) as Hd.
    destruct (inv_sellers 0 s I t w Hw) as (Hk & Hdone & Hpc).
    rewrite (step_lookup t s w Hw).
    unfold decrements in Hd. destruct w as [p d k]; simpl in *.
    destruct p; simpl in *; repeat split; try lia; try congruence;
      try (destruct d; [reflexivity | lia]).
    intros _. rewrite Hz. simpl. repeat f_equal. lia.
  - intros Hex. destruct (Hfin Hex) as (Hn & Hsold & Hrep & _).
    rewrite Hz in *. split; [lia|]. rewrite Hrep, Hsold. reflexivity.
Qed.

Lemma C7_no_tickets_witness :
  exists s,
    exec [0; 1; 0; 1; 1; 1; 1; 0; 1; 0; 0; 1; 0; 0]%nat (init 0 2) = Some s /\
    all_exited s = true /\ numTickets s = 0 /\ reported (output s) = 0.
Proof.
  eexists. split; [vm_compute; reflexivity|]. split; [vm_compute; reflexivity|].
  refine ((fun H => conj (proj1 H)
                      (proj2 (proj2 (proj2 (proj2 (proj2 H))) _)))
    (C7_no_tickets 2 [0; 1; 0; 1; 1; 1; 1; 0; 1; 0; 0; 1; 0; 0]%nat _ _)).
  - vm_compute; reflexivity.
  - vm_compute; reflexivity.
Defined.

(** C8: under every schedule, from any number of tickets and sellers:
    the lock is 0 or 1 and two different sellers are never both between
    their [sem_wait] and their [sem_post]; [numTickets] is never
    negative; a seller that is about to execute [numTickets--] still
    finds it positive, so the decrement does not go below zero; and
    every count a seller prints is non-negative. *)
Theorem C8_mutual_exclusion (T : Z) (W : nat) (sched : list nat) (s : state) :
  0 <= T <= INT_MAX -> exec sched (init T W) = Some s ->
  0 <= ticketsLock s <= 1 /\
  (forall t u w w', sellers s !! t = Some w -> sellers s !! u = Some w' ->
     in_cs w = 1 -> in_cs w' = 1 -> t = u) /\
  (forall t w, sellers s !! t = Some w -> in_cs w = 1 -> ticketsLock s = 0) /\
  0 <= numTickets s /\
  (forall t w, sellers s !! t = Some w -> at_pc w = SDec -> 0 < numTickets s) /\
  Forall line_ok (output s).
Proof.
  intros [HT0 HT] H.
  destruct (exec_inv T sched _ s HT (init_inv T W HT0) H) as (I & _ & _).
  pose proof (inv_lock T s I) as Hl. pose proof (inv_holders T s I) as Hh.
  pose proof (sumZ_nonneg in_cs (sellers s) (in_cs_nonneg _)) as Hge.
  unfold holders in Hh.
  split; [lia|]. split; [|split; [|split; [|split]]].
  - intros t u w w'. apply (holders_exclusive T s t u w w' I).
  - intros t w Hw Hin.
    pose proof (sumZ_elem_le in_cs (sellers s) t w (in_cs_nonneg _) Hw). lia.
  - apply (inv_range T s I).
  - intros t w Hw Hpc. destruct (inv_sellers T s I t w Hw) as (_ & _ & Hp).
    rewrite Hpc in Hp. apply Hp.
  - apply (inv_output T s I).
Qed.

Lemma C8_mutual_exclusion_witness :
  exists s,
    exec [0; 1; 0; 1; 0; 0; 2; 0; 3; 2]%nat main_init = Some s /\
    0 <= ticketsLock s <= 1 /\ 0 <= numTickets s.
Proof.
  eexists. split; [vm_compute; reflexivity|].
  refine ((fun H => conj (proj1 H) (proj1 (proj2 (proj2 (proj2 H)))))
    (C8_mutual_exclusion 35 4 [0; 1; 0; 1; 0; 0; 2; 0; 3; 2]%nat _ _ _)).
  - unfold INT_MAX; lia.
  - vm_compute; reflexivity.
Defined.
End SellTicketsFacts.

(** * The reader and the writer *)

Section ReaderWriterFacts.
Import ReaderWriter.
Variable random_r : nat -> Z.

Ltac arith :=
  unfold NUM_TOTAL_BUFFERS, DATA_LENGTH, INT_MIN, INT_MAX in *;
  try lia; Z.to_euclidean_division_equations; lia.

Lemma inv_sem_init (writePt0 : Z) (junk : nat -> Z) : inv_sem (init writePt0 junk).
Proof.
  constructor; simpl; try reflexivity; try arith.
Qed.

Ltac split_step H :=
  match type of H with
  | context [if ?c then _ else _] =>
      let E := fresh "E" in
      destruct c eqn:E; [| try discriminate H]
  | _ => idtac
  end.

Lemma inv_sem_step (t : tid) (s s' : state) :
  inv_sem s -> step random_r t s = Running s' -> inv_sem s'.
Proof.
  intros [Hwi Hwl Hri Hrl He Hf Hee Hfe Hwo Hro Hrc Hbl] H.
  destruct s as [e f b wp wi wpt dw wc rp ri rpt dr wo ro].
  unfold w_holds, w_stored, w_advanced, w_prepared,
         r_holds, r_loaded, r_advanced, r_posted in *; simpl in *.
  destruct t; simpl in H; unfold step_writer, step_reader in H; simpl in H.
  - destruct wp; try discriminate H; split_step H;
      injection H as <-; constructor;
      unfold w_holds, w_stored, w_advanced, w_prepared,
             r_holds, r_loaded, r_advanced, r_posted; simpl;
      rewrite ?length_app, ?length_insert, ?Nat2Z.inj_add; simpl;
      rewrite ?wrap_int_id by arith;
      try assumption; try arith.
  - destruct rp; try discriminate H; split_step H.
    all: try (destruct (b !! Z.to_nat rpt) as [c|] eqn:Hc; [|discriminate H]).
    all: injection H as <-; constructor;
      unfold w_holds, w_stored, w_advanced, w_prepared,
             r_holds, r_loaded, r_advanced, r_posted; simpl;
      rewrite ?length_app, ?Nat2Z.inj_add; simpl;
      rewrite ?wrap_int_id by arith;
      try assumption; try arith.
Qed.

Lemma step_measure_rw (t : tid) (s s' : state) :
  inv_sem s -> step random_r t s = Running s' ->
  steps_left s' = steps_left s - 1.
Proof.
  intros [Hwi Hwl Hri Hrl He Hf Hee Hfe Hwo Hro Hrc Hbl] H.
  destruct s as [e f b wp wi wpt dw wc rp ri rpt dr wo ro].
  unfold steps_left, w_todo, r_todo; simpl in *.
  destruct t; simpl in H; unfold step_writer, step_reader in H; simpl in H.
  - destruct wp; try discriminate H; split_step H;
      injection H as <-; simpl;
      rewrite ?wrap_int_id by arith; try arith.
    all: apply Z.ltb_lt in E || apply Z.ltb_ge in E; arith.
  - destruct rp; try discriminate H; split_step H.
    all: try (destruct (b !! Z.to_nat rpt) as [c|] eqn:Hc; [|discriminate H]).
    all: injection H as <-; simpl;
      rewrite ?wrap_int_id by arith; try arith.
    all: apply Z.ltb_lt in E || apply Z.ltb_ge in E; arith.
Qed.

Lemma inv_cur_init (writePt0 : Z) (junk : nat -> Z) :
  0 <= writePt0 < NUM_TOTAL_BUFFERS -> inv_cur writePt0 (init writePt0 junk).
Proof. intros H. unfold inv_cur, w_advanced; simpl. arith. Qed.

Lemma inv_cur_step (writePt0 : Z) (t : tid) (s s' : state) :
  inv_sem s -> inv_cur writePt0 s -> step random_r t s = Running s' ->
  inv_cur writePt0 s'.
Proof.
  intros [Hwi Hwl Hri Hrl He Hf Hee Hfe Hwo Hro Hrc Hbl] Hc H.
  destruct s as [e f b wp wi wpt dw wc rp ri rpt dr wo ro].
  unfold inv_cur, w_advanced in *; simpl in *.
  destruct t; simpl in H; unfold step_writer, step_reader in H; simpl in H.
  - destruct wp; try discriminate H; split_step H;
      injection H as <-; simpl;
      rewrite ?wrap_int_id by arith; try arith.
  - destruct rp; try discriminate H; split_step H.
    all: try (destruct (b !! Z.to_nat rpt) as [c|] eqn:Hb; [|discriminate H]).
    all: injection H as <-; simpl; exact Hc.
Qed.

(** The reader never leaves the array, and neither does a writer whose
    cursor satisfies [inv_cur]. *)
Lemma reader_no_fault (s : state) : inv_sem s -> step random_r TReader s <> Fault.
Proof.
  intros [Hwi Hwl Hri Hrl He Hf Hee Hfe Hwo Hro Hrc Hbl].
  destruct s as [e f b wp wi wpt dw wc rp ri rpt dr wo ro].
  simpl in *. unfold step_reader; simpl.
  destruct rp; try discriminate; try (destruct (_ <? _); discriminate).
  assert (in_bounds rpt = true) as ->.
  { unfold in_bounds. apply andb_true_iff. split; [apply Z.leb_le | apply Z.ltb_lt]; arith. }
  destruct (b !! Z.to_nat rpt) as [c|] eqn:Hb; [discriminate|].
  apply lookup_ge_None in Hb. unfold r_advanced in Hrc; simpl in Hrc. arith.
Qed.

Lemma writer_no_fault (writePt0 : Z) (s : state) :
  inv_cur writePt0 s -> step random_r TWriter s <> Fault.
Proof.
  intros Hc.
  destruct s as [e f b wp wi wpt dw wc rp ri rpt dr wo ro].
  unfold inv_cur in Hc; simpl in *. unfold step_writer; simpl.
  destruct wp; try discriminate; try (destruct (_ <? _); discriminate).
  assert (in_bounds wpt = true) as ->; [|discriminate].
  unfold in_bounds. apply andb_true_iff. split; [apply Z.leb_le | apply Z.ltb_lt]; arith.
Qed.

(** The two threads are never both blocked: the two semaphores cannot
    both be 0 while both threads wait, and a thread that has exited has
    left the other one the permits it needs. *)
Lemma not_both_disabled (s : state) :
  inv_sem s -> finished s = false ->
  step random_r TWriter s = Disabled -> step random_r TReader s = Disabled ->
  False.
Proof.
  intros I Hfin Ew Er.
  destruct I as [Hwi Hwl Hri Hrl He Hf Hee Hfe Hwo Hro Hrc Hbl].
  destruct s as [e f b wp wi wpt dw wc rp ri rpt dr wo ro].
  unfold finished, w_holds, r_holds, r_posted in *; simpl in *.
  unfold step_writer in Ew; unfold step_reader in Er; simpl in *.
  destruct wp; try discriminate Ew; destruct rp; try discriminate Er;
    try discriminate Hfin; simpl in *;
    repeat match goal with
           | H : (if ?c then _ else _) = Disabled |- _ =>
               destruct c eqn:?; try discriminate H
           | H : match ?c with Some _ => _ | None => _ end = Disabled |- _ =>
               destruct c eqn:?; try discriminate H
           end;
    repeat match goal with
           | E : (_ <? _) = false |- _ => apply Z.ltb_ge in E
           end;
    arith.
Qed.

Lemma some_thread_enabled (s : state) :
  inv_sem s -> finished s = false -> exists t, step random_r t s <> Disabled.
Proof.
  intros I Hfin.
  destruct (step random_r TWriter s) as [s1| |] eqn:Ew;
    [exists TWriter; rewrite Ew; discriminate | | exists TWriter; rewrite Ew; discriminate].
  destruct (step random_r TReader s) as [s2| |] eqn:Er;
    [exists TReader; rewrite Er; discriminate | | exists TReader; rewrite Er; discriminate].
  destruct (not_both_disabled s I Hfin Ew Er).
Qed.

Lemma progress_rw (writePt0 : Z) (s : state) :
  inv_sem s -> inv_cur writePt0 s -> finished s = false ->
  exists t s', step random_r t s = Running s'.
Proof.
  intros I Hc Hfin.
  pose proof (reader_no_fault s I) as Hr.
  pose proof (writer_no_fault writePt0 s Hc) as Hw.
  destruct (some_thread_enabled s I Hfin) as [t Ht].
  destruct (step random_r t s) as [s'| |] eqn:E.
  - exists t, s'. exact E.
  - congruence.
  - destruct t; congruence.
Qed.

Lemma exec_inv_rw (sched : list tid) (s s' : state) :
  inv_sem s -> exec random_r sched s = Running s' ->
  inv_sem s' /\ steps_left s' = steps_left s - Z.of_nat (length sched).
Proof.
  revert s. induction sched as [|t sched IH]; intros s I H; simpl in H.
  - injection H as <-. simpl. split; [assumption | lia].
  - destruct (step random_r t s) as [s1| |] eqn:Hs; try discriminate H.
    destruct (IH s1 (inv_sem_step t s s1 I Hs) H) as [I' Hm].
    split; [assumption|].
    rewrite Hm, (step_measure_rw t s s1 I Hs). simpl length. lia.
Qed.

Lemma exec_inv_cur (writePt0 : Z) (sched : list tid) (s s' : state) :
  inv_sem s -> inv_cur writePt0 s -> exec random_r sched s = Running s' ->
  inv_cur writePt0 s'.
Proof.
  revert s. induction sched as [|t sched IH]; intros s I Hc H; simpl in H.
  - injection H as <-. assumption.
  - destruct (step random_r t s) as [s1| |] eqn:Hs; try discriminate H.
    apply (IH s1 (inv_sem_step t s s1 I Hs) (inv_cur_step writePt0 t s s1 I Hc Hs) H).
Qed.

(** A run whose writer's cursor started inside the array never leaves it. *)
Lemma exec_no_fault (writePt0 : Z) (sched : list tid) (s : state) :
  inv_sem s -> inv_cur writePt0 s -> exec random_r sched s <> Fault.
Proof.
  revert s. induction sched as [|t sched IH]; intros s I Hc; simpl.
  - discriminate.
  - destruct (step random_r t s) as [s1| |] eqn:Hs.
    + apply (IH s1 (inv_sem_step t s s1 I Hs) (inv_cur_step writePt0 t s s1 I Hc Hs)).
    + discriminate.
    + exfalso. destruct t.
      * apply (writer_no_fault writePt0 s Hc). exact Hs.
      * apply (reader_no_fault s I). exact Hs.
Qed.

Lemma steps_left_init (writePt0 : Z) (junk : nat -> Z) :
  steps_left (init writePt0 junk) = 242.
Proof. reflexivity. Qed.

Lemma steps_left_bounds (s : state) :
  inv_sem s -> 0 <= w_todo s /\ 0 <= r_todo s.
Proof.
  intros [Hwi Hwl Hri Hrl _ _ _ _ _ _ _ _]. unfold w_todo, r_todo.
  destruct (w_pc s), (r_pc s); arith.
Qed.

Lemma finished_final (s : state) :
  inv_sem s -> finished s = true ->
  steps_left s = 0 /\ puts s = DATA_LENGTH /\ takes s = DATA_LENGTH /\
  length (writer_out s) = Z.to_nat DATA_LENGTH /\
  length (reader_out s) = Z.to_nat DATA_LENGTH /\
  emptyBuffers s = NUM_TOTAL_BUFFERS /\ fullBuffers s = 0 /\
  (forall t, step random_r t s = Disabled).
Proof.
  intros [Hwi Hwl Hri Hrl He Hf Hee Hfe Hwo Hro Hrc Hbl] Hfin.
  unfold finished, steps_left, w_todo, r_todo, puts, takes,
    w_holds, w_stored, r_holds, r_loaded, r_posted in *.
  destruct (w_pc s) eqn:Ew; try discriminate Hfin.
  destruct (r_pc s) eqn:Er; try discriminate Hfin.
  repeat split; try arith.
  intros [|]; simpl; unfold step_writer, step_reader; rewrite ?Ew, ?Er; reflexivity.
Qed.

(** C3: [main] creates [emptyBuffers] with count 5 and [fullBuffers]
    with count 0.  In every run, wherever the writer's cursor started,
    the two counts are never negative and add up to 5 minus the permits
    the two threads hold between a [sem_wait] and the [sem_post] that
    follows it; when neither thread is in between, they add up to 5. *)
Theorem C3_permit_invariant (writePt0 : Z) (junk : nat -> Z)
    (sched : list tid) (s : state) :
  exec random_r sched (init writePt0 junk) = Running s ->
  emptyBuffers (init writePt0 junk) = 5 /\
  fullBuffers (init writePt0 junk) = 0 /\
  0 <= emptyBuffers s /\ 0 <= fullBuffers s /\
  emptyBuffers s + fullBuffers s + w_holds s + r_holds s = 5 /\
  (quiescent s = true -> emptyBuffers s + fullBuffers s = 5).
Proof.
  intros H.
  destruct (exec_inv_rw sched _ s (inv_sem_init writePt0 junk) H) as [I _].
  destruct I as [Hwi Hwl Hri Hrl He Hf Hee Hfe Hwo Hro Hrc Hbl].
  repeat split; try assumption; try arith.
  unfold quiescent, w_holds, r_holds in *.
  destruct (w_pc s), (r_pc s); simpl; intros Hq; try discriminate Hq; arith.
Qed.

(** Twenty iterations each, for a writer whose cursor starts in the
    array.  In every run each thread has completed at most 20
    iterations, a thread that has exited has completed exactly 20, and
    the run has taken at most 242 steps.  As long as a thread has not
    exited, one of the two is not blocked, and the reader's step never
    leaves the array; neither does the writer's when its cursor started
    at a slot of the array, and then the run can always go on with a
    step.  Once both threads have exited the run took exactly 242 steps,
    20 iterations each, the writer has printed 20 lines and the reader
    20, and no thread steps any more. *)
Lemma twenty_iterations_each (writePt0 : Z) (junk : nat -> Z)
    (sched : list tid) (s : state) :
  exec random_r sched (init writePt0 junk) = Running s ->
  0 <= puts s <= 20 /\ 0 <= takes s <= 20 /\
  (w_pc s = WDone -> puts s = 20) /\
  (r_pc s = RDone -> takes s = 20) /\
  (length sched <= 242)%nat /\
  (finished s = false -> exists t, step random_r t s <> Disabled) /\
  step random_r TReader s <> Fault /\
  (0 <= writePt0 < NUM_TOTAL_BUFFERS ->
     step random_r TWriter s <> Fault /\
     (finished s = false -> exists t s', step random_r t s = Running s')) /\
  (finished s = true ->
     length sched = 242%nat /\ puts s = 20 /\ takes s = 20 /\
     length (writer_out s) = 20%nat /\ length (reader_out s) = 20%nat /\
     (forall t, step random_r t s = Disabled)).
Proof.
  intros H.
  pose proof (inv_sem_init writePt0 junk) as I0.
  destruct (exec_inv_rw sched _ s I0 H) as [I Hm].
  rewrite steps_left_init in Hm.
  destruct (steps_left_bounds s I) as [Hwt Hrt]. unfold steps_left in Hm.
  pose proof (w_i_range s I) as Hwi. pose proof (r_i_range s I) as Hri.
  pose proof (w_in_loop s I) as Hwl. pose proof (r_in_loop s I) as Hrl.
  unfold puts, takes.
  split; [arith|]. split; [destruct (r_pc s); arith|].
  split; [intros E; rewrite E in Hwl; arith|].
  split; [intros E; rewrite E in Hrl |- *; arith|].
  split; [lia|].
  split; [apply (some_thread_enabled s I)|].
  split; [apply (reader_no_fault s I)|].
  split.
  - intros Hw0.
    pose proof (exec_inv_cur writePt0 sched _ s I0
                  (inv_cur_init writePt0 junk Hw0) H) as C.
    split; [apply (writer_no_fault writePt0 s C) | apply (progress_rw writePt0 s I C)].
  - intros Hfin.
    destruct (finished_final s I Hfin) as (Hz & Hp & Ht & Hlw & Hlr & _ & _ & Hd).
    unfold steps_left, puts, takes in *.
    repeat split; try assumption; try arith.
Qed.

(** ** A writer whose cursor starts outside the array *)




(** ** First in, first out, for a writer whose cursor starts at slot 0 *)

Lemma produced_S (n : nat) :
  produced random_r (S n) =
  produced random_r n ++
    [(Z.of_nat n mod NUM_TOTAL_BUFFERS, PrepareData (random_r n))].
Proof. unfold produced. rewrite seq_S, map_app. reflexivity. Qed.

Lemma length_snoc {A : Type} (l : list A) (x : A) : length (l ++ [x]) = S (length l).
Proof. rewrite length_app. simpl. lia. Qed.

Lemma inv_fifo_init (junk : nat -> Z) : inv_fifo random_r (init 0 junk).
Proof.
  constructor; unfold w_prepared, w_stored, r_loaded; simpl;
    try reflexivity; try lia.
Qed.

Lemma inv_fifo_step (t : tid) (s s' : state) :
  inv_sem s -> inv_cur 0 s -> inv_fifo random_r s ->
  step random_r t s = Running s' -> inv_fifo random_r s'.
Proof.
  intros [Hwi Hwl Hri Hrl He Hf Hee Hfe Hwo Hro Hrc Hbl] Hc
         [Hcalls Hdata Hw Hr Hslots] H.
  destruct s as [e f b wp wi wpt dw wc rp ri rpt dr wo ro].
  unfold inv_cur, w_holds, w_stored, w_advanced, w_prepared,
         r_holds, r_loaded, r_advanced, r_posted in *; simpl in *.
  destruct t; simpl in H; unfold step_writer, step_reader in H; simpl in H.
  - destruct wp; try discriminate H; split_step H; injection H as <-;
      constructor;
      unfold w_holds, w_stored, w_advanced, w_prepared,
             r_holds, r_loaded, r_advanced, r_posted; simpl;
      rewrite ?wrap_int_id by arith; try assumption; try lia.
    + (* the character is prepared *)
      intros _. replace wc with (Z.to_nat wi) by lia. reflexivity.
    + (* it is stored: one more line, one more slot filled *)
      rewrite length_snoc, produced_S, <- Hw.
      replace (length wo) with (Z.to_nat wi) by lia.
      rewrite Hdata by reflexivity. rewrite Z2Nat.id by lia.
      do 3 f_equal. rewrite Hc. f_equal. lia.
    + intros k Hk. destruct (Z.eq_dec (Z.of_nat k) wi) as [Heq|Hne].
      * rewrite Hc, Hdata by reflexivity. subst wi. rewrite Nat2Z.id.
        replace (0 + Z.of_nat k + 0) with (Z.of_nat k) by lia.
        apply list_lookup_insert_eq. rewrite Hbl. arith.
      * rewrite list_lookup_insert_ne; [apply Hslots; lia|].
        rewrite Hc. destruct rp; arith.
    + intros k Hk. apply Hslots. lia.
  - destruct rp; try discriminate H; split_step H.
    all: try (destruct (b !! Z.to_nat rpt) as [c|] eqn:Hb; [|discriminate H]).
    all: injection H as <-; constructor;
      unfold w_holds, w_stored, w_advanced, w_prepared,
             r_holds, r_loaded, r_advanced, r_posted; simpl;
      rewrite ?wrap_int_id by arith; try assumption.
    all: try (intros k Hk; apply Hslots; lia).
    (* the character is loaded: it is the next one of the writer *)
    rewrite length_snoc, produced_S, <- Hr.
    assert (length ro = Z.to_nat ri) as Hlen by lia.
    assert (b !! Z.to_nat (Z.of_nat (length ro) mod NUM_TOTAL_BUFFERS) =
            Some (PrepareData (random_r (length ro)))) as Hslot.
    { apply Hslots. destruct wp; lia. }
    rewrite Hlen, Z2Nat.id in Hslot by lia.
    replace (ri + 0) with ri in Hrc by lia. rewrite <- Hrc, Hb in Hslot.
    injection Hslot as ->. rewrite Hlen, Z2Nat.id, <- Hrc by lia. reflexivity.
Qed.

Lemma exec_inv_fifo (sched : list tid) (s s' : state) :
  inv_sem s -> inv_cur 0 s -> inv_fifo random_r s ->
  exec random_r sched s = Running s' -> inv_fifo random_r s'.
Proof.
  revert s. induction sched as [|t sched IH]; intros s I Hc Hf H; simpl in H.
  - injection H as <-. assumption.
  - destruct (step random_r t s) as [s1| |] eqn:Hs; try discriminate H.
    apply (IH s1 (inv_sem_step t s s1 I Hs) (inv_cur_step 0 t s s1 I Hc Hs)
              (inv_fifo_step t s s1 I Hc Hf Hs) H).
Qed.

Lemma produced_take (n m : nat) :
  (n <= m)%nat -> take n (produced random_r m) = produced random_r n.
Proof.
  intros H. unfold produced. rewrite firstn_map. f_equal.
  replace m with (n + (m - n))%nat by lia.
  rewrite seq_app, take_app_length'; [reflexivity | symmetry; apply length_seq].
Qed.

(** When [writePt] starts at 0: in every run the lines the reader has
    printed are the first lines the writer has printed, slot by slot and
    character by character, the [k]-th character being the one prepared
    from the [k]-th number of the generator; no run leaves the array;
    and once both threads have exited the reader has read the 20
    characters written, in the order in which they were written. *)
Lemma fifo_from_slot_zero (junk : nat -> Z) (sched : list tid) :
  exec random_r sched (init 0 junk) <> Fault /\
  forall s, exec random_r sched (init 0 junk) = Running s ->
    reader_out s = take (length (reader_out s)) (writer_out s) /\
    consumed s = take (length (consumed s)) (written s) /\
    (forall k c, consumed s !! k = Some c -> written s !! k = Some c) /\
    written s = map (fun k => PrepareData (random_r k)) (seq 0 (length (written s))) /\
    (finished s = true ->
       consumed s = written s /\ length (consumed s) = 20%nat).
Proof.
  pose proof (inv_sem_init 0 junk) as I0.
  assert (inv_cur 0 (init 0 junk)) as C0 by (apply inv_cur_init; arith).
  split; [apply (exec_no_fault 0 sched _ I0 C0)|].
  intros s H.
  destruct (exec_inv_rw sched _ s I0 H) as [I _].
  pose proof (exec_inv_fifo sched _ s I0 C0 (inv_fifo_init junk) H) as F.
  pose proof (w_out_eq _ s F) as Hw. pose proof (r_out_eq _ s F) as Hr.
  assert (length (reader_out s) <= length (writer_out s))%nat as Hle.
  { pose proof (w_out_len s I) as Hwl. pose proof (r_out_len s I) as Hrl.
    pose proof (full_eq s I) as Hf. pose proof (full_nonneg s I) as Hf0.
    unfold w_stored, r_loaded, r_holds, r_posted in *.
    destruct (w_pc s), (r_pc s); lia. }
  assert (reader_out s = take (length (reader_out s)) (writer_out s)) as Hpre.
  { rewrite Hw, produced_take by exact Hle. exact Hr. }
  assert (consumed s = take (length (consumed s)) (written s)) as Hpre'.
  { unfold consumed, written. rewrite length_map, firstn_map, <- Hpre. reflexivity. }
  split; [exact Hpre|]. split; [exact Hpre'|]. split; [|split].
  - intros k c Hk. rewrite Hpre' in Hk. apply lookup_take_Some in Hk. apply Hk.
  - unfold written. rewrite length_map. rewrite Hw at 1. unfold produced.
    rewrite map_map. reflexivity.
  - intros Hfin.
    destruct (finished_final s I Hfin) as (_ & _ & _ & Hlw & Hlr & _).
    unfold consumed, written in *. rewrite length_map.
    split; [|rewrite Hlr; reflexivity].
    rewrite Hpre at 1. rewrite Hlr, <- Hlw, firstn_all. reflexivity.
Qed.
End ReaderWriterFacts.

(** ** Runs of the program as written *)

Section ReaderWriterRuns.
Import ReaderWriter.

Lemma C3_permit_invariant_witness :
  exists s,
    exec (fun _ => 0)
      [TWriter; TWriter; TWriter; TWriter; TWriter; TWriter; TReader]
      (init 3 (fun _ => 0)) = Running s /\
    quiescent s = true /\ emptyBuffers s = 4 /\ fullBuffers s = 1 /\
    emptyBuffers s + fullBuffers s = 5.
Proof.
  eexists. split; [vm_compute; reflexivity|].
  split; [reflexivity|]. split; [reflexivity|]. split; [reflexivity|].
  refine (proj2 (proj2 (proj2 (proj2 (proj2
    (C3_permit_invariant (fun _ => 0) 3 (fun _ => 0)
       [TWriter; TWriter; TWriter; TWriter; TWriter; TWriter; TReader] _ _))))) _).
  - vm_compute; reflexivity.
  - reflexivity.
Defined.


Lemma twenty_iterations_each_run :
  exists s,
    exec (fun _ => 0)
      (concat (replicate 20 (replicate 6 TWriter ++ replicate 6 TReader))
         ++ [TWriter; TReader])
      (init 0 (fun _ => 0)) = Running s /\
    finished s = true /\ puts s = 20 /\ takes s = 20.
Proof.
  eexists. split; [vm_compute; reflexivity|]. split; [vm_compute; reflexivity|].
  refine ((fun H => conj (proj1 (proj2 H)) (proj1 (proj2 (proj2 H))))
    (proj2 (proj2 (proj2 (proj2 (proj2 (proj2 (proj2 (proj2
       (twenty_iterations_each (fun _ => 0) 0 (fun _ => 0)
          (concat (replicate 20 (replicate 6 TWriter ++ replicate 6 TReader))
             ++ [TWriter; TReader]) _ _)))))))) _)).
  - vm_compute; reflexivity.
  - vm_compute; reflexivity.
Defined.

(** C9: on a number [random_r] can deliver, which is never negative,
    [PrepareData] returns 65 plus that number modulo 25: a character
    from 65 ('A') to 89 ('Y'). *)
Theorem C9_prepare_data_range (result : Z) :
  0 <= result ->
  PrepareData result = 65 + result mod 25 /\
  65 <= PrepareData result <= 89.
Proof.
  intros H. unfold PrepareData, to_char.
  rewrite Z.rem_mod_nonneg by lia.
  pose proof (Z.mod_pos_bound result 25 ltac:(lia)) as Hm.
  rewrite Z.mod_small by lia. lia.
Qed.

Lemma C9_prepare_data_range_witness :
  PrepareData 1804289383 = 73 /\ 65 <= PrepareData 1804289383 <= 89.
Proof.
  split; [reflexivity|].
  refine (proj2 (C9_prepare_data_range 1804289383 _)). lia.
Defined.

(** C1, on a writer whose cursor happens to start at slot 3: after one
    complete iteration of the writer the character 'A' is in slot 3, and
    the reader, let in by [fullBuffers], reads slot 0, which nobody has
    written.  The first character read is not the first one written. *)
Theorem C1_first_take_misses_first_put :
  exists s,
    exec (fun _ => 0)
      [TWriter; TWriter; TWriter; TWriter; TWriter; TWriter;
       TReader; TReader; TReader]
      (init 3 (fun k => 100 + Z.of_nat k)) = Running s /\
    writer_out s = [(3, 65)] /\ reader_out s = [(0, 100)] /\
    written s = [65] /\ consumed s = [100].
Proof. eexists. split; [vm_compute; reflexivity|]. repeat split. Qed.

(** C10, on a writer whose cursor happens to start at 7, or at -1: the
    first store of the writer is outside the five slots of the array. *)
Theorem C10_first_store_leaves_the_array :
  exec (fun _ => 0) [TWriter; TWriter; TWriter; TWriter]
    (init 7 (fun _ => 0)) = Fault /\
  exec (fun _ => 0) [TWriter; TWriter; TWriter; TWriter]
    (init (-1) (fun _ => 0)) = Fault /\
  exists s,
    exec (fun _ => 0) [TWriter; TWriter; TWriter]
      (init 7 (fun _ => 0)) = Running s /\
    w_pc s = WStore /\ w_i s = 0 /\ writePt s = 7 /\
    length (buffers s) = 5%nat.
Proof.
  split; [vm_compute; reflexivity|]. split; [vm_compute; reflexivity|].
  eexists. split; [vm_compute; reflexivity|]. repeat split.
Qed.
End ReaderWriterRuns.

(** * The output of the sellers *)

Section SellTicketsOutputFacts.
Import SellTickets SellTicketsOutput.

Lemma sumZ_plus {A : Type} (f g : A -> Z) (l : list A) :
  sumZ (fun x => f x + g x) l = sumZ f l + sumZ g l.
Proof. induction l as [|a l IH]; simpl; [reflexivity | rewrite IH; lia]. Qed.

Lemma sumZ_le {A : Type} (f g : A -> Z) (l : list A) :
  (forall x, f x <= g x) -> sumZ f l <= sumZ g l.
Proof.
  intros H. induction l as [|a l IH]; simpl; [lia|]. specialize (H a). lia.
Qed.

Lemma at_inc_nonneg (l : list seller) : nonneg_on at_inc l.
Proof. intros i [p d k] _. unfold at_inc. destruct p; simpl; lia. Qed.

(** Decrements not yet counted: at most one, by the seller at
    [numSoldByThisThread++]. *)
Lemma pending_decrement (T : Z) (s : state) :
  inv T s ->
  total_decrements s = total_sold s + sumZ at_inc (sellers s) /\
  0 <= sumZ at_inc (sellers s) <= 1.
Proof.
  intros I. split.
  - unfold total_decrements, total_sold. rewrite <- sumZ_plus. reflexivity.
  - pose proof (sumZ_nonneg at_inc (sellers s) (at_inc_nonneg _)).
    assert (sumZ at_inc (sellers s) <= sumZ in_cs (sellers s)) as Hle.
    { apply sumZ_le. intros [p d k]. unfold at_inc, in_cs. destruct p; simpl; lia. }
    pose proof (inv_lock T s I). pose proof (inv_holders T s I).
    unfold holders in *. lia.
Qed.

Lemma sold_lines_app (o : list line) (l : line) :
  sold_lines (o ++ [l]) = sold_lines o ++ sold_lines [l].
Proof.
  induction o as [|a o IH]; simpl; [reflexivity|].
  destruct a; rewrite IH; reflexivity.
Qed.

Lemma sales_of_app (t : nat) (o : list line) (l : line) :
  sales_of t (o ++ [l]) = sales_of t o + sales_of t [l].
Proof.
  induction o as [|a o IH]; simpl; [lia|].
  destruct a; rewrite IH; simpl; lia.
Qed.

Lemma notices_of_app (t : nat) (o : list line) (l : line) :
  notices_of t (o ++ [l]) = notices_of t o ++ notices_of t [l].
Proof.
  induction o as [|a o IH]; simpl; [reflexivity|].
  destruct a; [exact IH|]. destruct (Nat.eqb t0 t); rewrite IH; reflexivity.
Qed.

Lemma count_down_S (T : Z) (n : nat) :
  count_down T (S n) = count_down T n ++ [T - 1 - Z.of_nat n].
Proof. unfold count_down. rewrite seq_S, map_app. reflexivity. Qed.

Lemma inv_out_init (T : Z) (W : nat) : inv_out T (init T W).
Proof.
  constructor; unfold total_sold; simpl.
  - rewrite sumZ_replicate. simpl. rewrite Z.mul_0_r. reflexivity.
  - intros t w H. apply lookup_replicate in H as [-> _]. reflexivity.
  - intros t w H. apply lookup_replicate in H as [-> _]. reflexivity.
Qed.

Lemma inv_out_step (T : Z) (t : nat) (s s' : state) :
  T <= INT_MAX -> inv T s -> inv_out T s -> step t s = Some s' ->
  inv_out T s'.
Proof.
  intros HT I [Hsold Hsales Hnot] Hstep.
  destruct (pending_decrement T s I) as [Hpend Hone].
  pose proof (inv_total T s I) as Htot.
  pose proof (inv_range T s I) as Hr.
  unfold step in Hstep.
  destruct (sellers s !! t) as [w|] eqn:Hw; [|discriminate].
  pose proof (inv_sellers T s I t w Hw) as (Hk & _ & _).
  pose proof (sold_le_total T s t w I Hw) as Hle.
  pose proof (sumZ_elem_le at_inc (sellers s) t w (at_inc_nonneg _) Hw) as Hinc.
  pose proof (Hsales t w Hw) as Hst. pose proof (Hnot t w Hw) as Hnt.
  assert (Hlt : (t < length (sellers s))%nat) by (eapply lookup_lt_Some; eauto).
  unfold total_sold, decrements, at_inc, exited in *.
  destruct w as [p d k]; simpl in *.
  destruct p; simpl in *;
    [ | | destruct (0 <? ticketsLock s); [|discriminate]
      | destruct (numTickets s =? 0)
      | | | | | discriminate ];
    injection Hstep as <-;
    try rewrite (wrap_int_id (k + 1)) by (unfold INT_MIN; lia).
  all: constructor; unfold total_sold, goto; simpl;
    rewrite ?(sumZ_insert _ _ _ _ _ Hw); simpl;
    rewrite ?sold_lines_app; simpl; rewrite ?app_nil_r.
  all: try (replace (sumZ numSoldByThisThread (sellers s) - k + k)
              with (sumZ numSoldByThisThread (sellers s)) by lia; exact Hsold).
  all: try (intros t' w' H'; destruct (decide (t = t')) as [<-|Hne];
      [ rewrite list_lookup_insert_eq in H' by assumption;
        injection H' as <-; simpl;
        rewrite ?sales_of_app, ?notices_of_app; simpl;
        rewrite ?Nat.eqb_refl, ?app_nil_r, ?Z.add_0_r;
        try assumption; try lia
      | rewrite list_lookup_insert_ne in H' by congruence;
        rewrite ?sales_of_app, ?notices_of_app; simpl;
        rewrite ?(proj2 (Nat.eqb_neq t t')) by assumption;
        rewrite ?app_nil_r, ?Z.add_0_r;
        first [apply (Hsales t' w' H') | apply (Hnot t' w' H')] ]).
  - destruct d; assumption.
  - (* the line of a sale: the count printed is the next one down *)
    replace (sumZ numSoldByThisThread (sellers s) - k + (k + 1))
      with (Z.succ (sumZ numSoldByThisThread (sellers s))) by lia.
    pose proof (sumZ_nonneg numSoldByThisThread (sellers s)) as Hge.
    rewrite Z2Nat.inj_succ.
    + rewrite count_down_S, <- Hsold. do 2 f_equal. rewrite Z2Nat.id; lia.
    + lia.
  - rewrite Hnt. reflexivity.
Qed.

Lemma exec_inv_out (T : Z) (sched : list nat) (s s' : state) :
  T <= INT_MAX -> inv T s -> inv_out T s -> exec sched s = Some s' ->
  inv_out T s'.
Proof.
  intros HT. revert s. induction sched as [|t sched IH]; intros s I O H; simpl in H.
  - injection H as <-. assumption.
  - destruct (step t s) as [s1|] eqn:Hstep; [|discriminate].
    apply (IH s1 (inv_step T t s s1 HT I Hstep)
              (inv_out_step T t s s1 HT I O Hstep) H).
Qed.

(** X1: the lines "sold one (n left)" count down.  In a run that started
    with [T] tickets, the [k]-th such line (from 0) prints [T - 1 - k],
    whichever seller prints it; there is one line for each sale counted;
    and once all sellers have exited (there being at least one) the
    lines are [T - 1], ..., 1, 0. *)
Theorem sold_lines_count_down (T : Z) (W : nat) (sched : list nat) (s : state) :
  0 <= T <= INT_MAX -> exec sched (init T W) = Some s ->
  sold_lines (output s) = count_down T (Z.to_nat (total_sold s)) /\
  Z.of_nat (length (sold_lines (output s))) = total_sold s /\
  (forall k n, sold_lines (output s) !! k = Some n -> n = T - 1 - Z.of_nat k) /\
  (all_exited s = true -> W <> 0%nat ->
     sold_lines (output s) = count_down T (Z.to_nat T)).
Proof.
  intros [HT0 HT] H.
  destruct (sell_out T W sched s (conj HT0 HT) H) as (I & _ & _ & Hfin).
  pose proof (exec_inv_out T sched _ s HT (init_inv T W HT0) (inv_out_init T W) H) as O.
  pose proof (out_sold T s O) as Hsold.
  destruct (pending_decrement T s I) as [Hpend Hone].
  pose proof (inv_total T s I) as Htot. pose proof (inv_range T s I) as Hr.
  assert (0 <= total_sold s) as Hge.
  { apply sumZ_nonneg. intros i w Hi. apply (inv_sellers T s I i w Hi). }
  split; [exact Hsold|]. split; [|split].
  - rewrite Hsold. unfold count_down. rewrite length_map, length_seq. lia.
  - intros k n Hk. rewrite Hsold in Hk. unfold count_down in Hk.
    apply list_lookup_fmap_Some in Hk as (j & -> & Hj).
    apply lookup_seq in Hj as [-> _]. simpl. reflexivity.
  - intros Hex HW. destruct (Hfin Hex) as (_ & Ht & _ & Hz).
    rewrite Hsold, Ht, (Hz HW). do 2 f_equal. lia.
Qed.

(** X2: what a seller says it sold is what it printed.  In every run the
    count [numSoldByThisThread] of a seller is the number of its lines
    "sold one"; a seller that has not exited has printed no line
    "noticed all tickets sold!", and one that has exited has printed
    exactly one, with that number. *)
Theorem notice_counts_own_sales (T : Z) (W : nat) (sched : list nat)
    (s : state) (t : nat) (w : seller) :
  0 <= T <= INT_MAX -> exec sched (init T W) = Some s ->
  sellers s !! t = Some w ->
  sales_of t (output s) = numSoldByThisThread w /\
  (exited w = false -> notices_of t (output s) = []) /\
  (exited w = true -> notices_of t (output s) = [sales_of t (output s)]).
Proof.
  intros [HT0 HT] H Hw.
  destruct (exec_inv T sched _ s HT (init_inv T W HT0) H) as (I & _ & _).
  pose proof (exec_inv_out T sched _ s HT (init_inv T W HT0) (inv_out_init T W) H) as O.
  pose proof (out_sales T s O t w Hw) as Hs.
  pose proof (out_notices T s O t w Hw) as Hn.
  split; [exact Hs|]. split; intros E; rewrite E in Hn; rewrite Hn; [|rewrite Hs];
    reflexivity.
Qed.

Lemma notice_counts_own_sales_witness :
  exists s w,
    exec (replicate 70 0 ++ replicate 182 1 ++ replicate 7 0
            ++ replicate 7 2 ++ replicate 5 3)%nat main_init = Some s /\
    sellers s !! 1%nat = Some w /\ exited w = true /\
    sales_of 1 (output s) = 25 /\
    notices_of 1 (output s) = [sales_of 1 (output s)].
Proof.
  eexists. eexists.
  split; [vm_compute; reflexivity|]. split; [vm_compute; reflexivity|].
  split; [reflexivity|]. split; [vm_compute; reflexivity|].
  refine (proj2 (proj2
    (notice_counts_own_sales 35 4
       (replicate 70 0 ++ replicate 182 1 ++ replicate 7 0
          ++ replicate 7 2 ++ replicate 5 3)%nat _ 1%nat _ _ _ _)) _).
  - unfold INT_MAX; lia.
  - vm_compute; reflexivity.
  - vm_compute; reflexivity.
  - reflexivity.
Defined.

Lemma sold_lines_count_down_witness :
  exists s,
    exec (replicate 7 0 ++ replicate 7 1 ++ replicate 6 2)%nat
      (init 35 3) = Some s /\
    sold_lines (output s) = [34; 33; 32].
Proof.
  eexists. split; [vm_compute; reflexivity|].
  refine (eq_trans (proj1
    (sold_lines_count_down 35 3
       (replicate 7 0 ++ replicate 7 1 ++ replicate 6 2)%nat _ _ _)) _).
  - unfold INT_MAX; lia.
  - vm_compute; reflexivity.
  - vm_compute; reflexivity.
Defined.

(** X3: the lock is never lost.  In every run [ticketsLock] is 0 exactly
    when some seller is between its [sem_wait] and its [sem_post], and
    that seller can take its next step; once all sellers have exited
    the lock is 1 again. *)
Theorem lock_taken_iff_held (T : Z) (W : nat) (sched : list nat) (s : state) :
  0 <= T <= INT_MAX -> exec sched (init T W) = Some s ->
  (ticketsLock s = 0 <->
     exists t w, sellers s !! t = Some w /\ in_cs w = 1) /\
  (ticketsLock s = 0 ->
     exists t w s', sellers s !! t = Some w /\ in_cs w = 1 /\
                    step t s = Some s') /\
  (all_exited s = true -> ticketsLock s = 1).
Proof.
  intros [HT0 HT] H.
  destruct (exec_inv T sched _ s HT (init_inv T W HT0) H) as (I & _ & _).
  pose proof (inv_lock T s I) as Hl. pose proof (inv_holders T s I) as Hh.
  unfold holders in Hh.
  assert (ticketsLock s = 0 ->
          exists t w s', sellers s !! t = Some w /\ in_cs w = 1 /\
                         step t s = Some s') as Hheld.
  { intros H0.
    destruct (sumZ_pos_elem in_cs (sellers s)) as (t & w & Ht & Hin); [lia|].
    exists t, w. rewrite (step_lookup t s w Ht).
    destruct w as [p d k]; unfold in_cs in Hin |- *; simpl in Hin |- *.
    destruct p; try lia;
      try (eexists; split; [exact Ht | split; reflexivity]).
    destruct (numTickets s =? 0);
      eexists; (split; [exact Ht | split; reflexivity]). }
  split; [split|split].
  - intros H0. destruct (Hheld H0) as (t & w & _ & Ht & Hin & _). eauto.
  - intros (t & w & Ht & Hin).
    pose proof (sumZ_elem_le in_cs (sellers s) t w (in_cs_nonneg _) Ht). lia.
  - exact Hheld.
  - intros Hex.
    assert (sumZ in_cs (sellers s) = 0) as Hz; [|lia].
    apply sumZ_zero. intros i w Hi.
    pose proof (proj1 (forallb_lookup exited (sellers s)) Hex i w Hi) as He.
    unfold exited, in_cs in *. destruct (at_pc w); congruence.
Qed.

Lemma lock_taken_iff_held_witness :
  exists s t w s',
    exec [0; 1; 0; 1; 1; 1]%nat main_init = Some s /\
    ticketsLock s = 0 /\
    sellers s !! t = Some w /\ in_cs w = 1 /\ step t s = Some s'.
Proof.
  assert (exists s, exec [0; 1; 0; 1; 1; 1]%nat main_init = Some s /\
                    ticketsLock s = 0) as (s & Hs & H0).
  { eexists. split; vm_compute; reflexivity. }
  destruct (proj1 (proj2
    (lock_taken_iff_held 35 4 [0; 1; 0; 1; 1; 1]%nat s
       ltac:(unfold INT_MAX; lia) Hs)) H0) as (t & w & s' & Ht & Hin & Hstep).
  exists s, t, w, s'. auto.
Defined.
End SellTicketsOutputFacts.

(** * The whole program of sellTickets.c *)

Section SellTicketsProgramFacts.
Import SellTickets SellTicketsProgram.
Variable W : nat.
Variable create_rc join_rc : nat -> Z.

Local Abbreviation main_step := (SellTicketsProgram.main_step W create_rc join_rc).
Local Abbreviation pstep := (SellTicketsProgram.pstep W create_rc join_rc).
Local Abbreviation pexec := (SellTicketsProgram.pexec W create_rc join_rc).
Local Abbreviation main_ok := (SellTicketsProgram.main_ok W create_rc join_rc).

Lemma main_step_shared (p p' : process) :
  main_step p = Some p' -> shared p' = shared p.
Proof.
  unfold SellTicketsProgram.main_step. destruct (main_at p);
    repeat match goal with
           | |- context [if ?c then _ else _] => destruct c
           | |- context [match ?c with Some _ => _ | None => _ end] => destruct c
           end;
    intros H; try discriminate; injection H as <-; reflexivity.
Qed.

Lemma seller_step_inv (t : nat) (p p' : process) :
  seller_step t p = Some p' ->
  (t < created p)%nat /\ step t (shared p) = Some (shared p') /\
  main_at p' = main_at p /\ created p' = created p /\
  main_out p' = main_out p /\ (forall c, main_at p <> MExit c).
Proof.
  unfold seller_step. intros H.
  assert (forall c, main_at p <> MExit c) as Hne.
  { intros c E. rewrite E in H. discriminate. }
  assert ((if (t <? created p)%nat
           then match step t (shared p) with
                | Some s' => Some (mkProcess (main_at p) (created p) s' (main_out p))
                | None => None
                end
           else None) = Some p') as H'.
  { destruct (main_at p); try exact H. discriminate. }
  clear H. destruct (t <? created p)%nat eqn:Hlt; [|discriminate].
  apply Nat.ltb_lt in Hlt.
  destruct (step t (shared p)) as [s'|]; [|discriminate].
  injection H' as <-. simpl. repeat split; auto.
Qed.

(** The sellers of the process run as the sellers run on their own. *)
Lemma pexec_shared (sched : list actor) (p p' : process) :
  pexec sched p = Some p' ->
  exec (sellers_of sched) (shared p) = Some (shared p').
Proof.
  revert p. induction sched as [|a sched IH]; intros p H; simpl in H.
  - injection H as <-. reflexivity.
  - destruct (pstep a p) as [p1|] eqn:Hs; [|discriminate].
    destruct a as [|t]; simpl in Hs |- *.
    + rewrite <- (main_step_shared p p1 Hs). apply (IH p1 H).
    + destruct (seller_step_inv t p p1 Hs) as (_ & Hstep & _).
      rewrite Hstep. apply (IH p1 H).
Qed.

(** A step changes the record of the seller that takes it and no other. *)
Lemma step_sellers (t : nat) (s s' : state) :
  step t s = Some s' ->
  exists w w', sellers s !! t = Some w /\ exited w = false /\
               sellers s' = <[t := w']> (sellers s).
Proof.
  unfold step. destruct (sellers s !! t) as [w|]; [|discriminate].
  intros H. exists w. unfold exited.
  destruct (at_pc w);
    repeat match type of H with
           | context [if ?c then _ else _] => destruct c
           end;
    try discriminate; injection H as <-; simpl; eexists; auto.
Qed.

Lemma exited_stable (t j : nat) (s s' : state) (w : seller) :
  step t s = Some s' -> sellers s !! j = Some w -> exited w = true ->
  sellers s' !! j = Some w.
Proof.
  intros H Hj He. destruct (step_sellers t s s' H) as (v & v' & Ht & Hv & ->).
  destruct (decide (t = j)) as [->|Hne]; [congruence|].
  rewrite list_lookup_insert_ne by exact Hne. exact Hj.
Qed.

Lemma calls_ok_S (rc : nat -> Z) (i : nat) :
  calls_ok rc i -> rc i = 0 -> calls_ok rc (S i).
Proof.
  intros H H0 j Hj. destruct (decide (j = i)) as [->|Hne]; [exact H0|].
  apply H. lia.
Qed.

Lemma main_ok_init (T : Z) : main_ok (process_init W T).
Proof.
  split; simpl; [apply length_replicate|].
  repeat split; [lia|]. intros j Hj. lia.
Qed.

Lemma main_ok_step (a : actor) (p p' : process) :
  main_ok p -> pstep a p = Some p' -> main_ok p'.
Proof.
  intros [Hlen Hat] H. destruct a as [|t]; simpl in H.
  - (* main *)
    pose proof (main_step_shared p p' H) as Hsh.
    unfold SellTicketsProgram.main_step in H.
    destruct (main_at p) as [i|i| |c|c] eqn:Hm; try discriminate.
    + destruct Hat as (Hc & Hi & Ho & Hok).
      destruct (i <? W)%nat eqn:Hlt;
        [apply Nat.ltb_lt in Hlt | apply Nat.ltb_ge in Hlt].
      * destruct (create_rc i =? 0) eqn:Hrc;
          [apply Z.eqb_eq in Hrc | apply Z.eqb_neq in Hrc];
          injection H as <-; split; simpl; try assumption.
        -- repeat split; try lia; try assumption. apply calls_ok_S; assumption.
        -- split; [reflexivity|]. left. exists i. simpl. rewrite Ho. auto.
      * injection H as <-. split; simpl; [assumption|].
        assert (i = W) as -> by lia.
        repeat split; try assumption; try lia; intros j Hj; lia.
    + destruct Hat as (Hc & Hi & Ho & Hcr & Hjo & Hex).
      destruct (i <? W)%nat eqn:Hlt;
        [apply Nat.ltb_lt in Hlt | apply Nat.ltb_ge in Hlt].
      * destruct (join_rc i =? 0) eqn:Hrc;
          [apply Z.eqb_eq in Hrc | apply Z.eqb_neq in Hrc].
        -- destruct (sellers (shared p) !! i) as [w|] eqn:Hw; [|discriminate].
           destruct (exited w) eqn:He; [|discriminate].
           injection H as <-. split; simpl; [assumption|].
           repeat split; try assumption; try lia.
           ++ apply calls_ok_S; assumption.
           ++ intros j Hj. destruct (decide (j = i)) as [->|Hne]; [eauto|].
              apply Hex. lia.
        -- injection H as <-. split; simpl; [assumption|].
           split; [reflexivity|]. right. exists i. simpl. rewrite Ho. auto 10.
      * injection H as <-. split; simpl; [assumption|].
        assert (i = W) as -> by lia. rewrite Ho.
        repeat split; try assumption.
        apply forallb_lookup. intros j w Hj.
        assert (j < W)%nat as HjW by (rewrite <- Hlen; eapply lookup_lt_Some; eauto).
        destruct (Hex j HjW) as (w' & Hw' & He). congruence.
    + (* exit ends the process *)
      injection H as <-. split; simpl; [assumption|]. exact Hat.
  - (* a seller *)
    destruct (seller_step_inv t p p' H) as (Hlt & Hstep & Hm & Hc & Ho & Hne).
    split; [rewrite (step_length t _ _ Hstep); exact Hlen|].
    unfold failed_call in *. rewrite Hm, Hc, Ho.
    destruct (main_at p) as [i|i| |c|c] eqn:Hat'.
    + exact Hat.
    + destruct Hat as (H1 & H2 & H3 & H4 & H5 & Hex).
      repeat split; try assumption.
      intros j Hj. destruct (Hex j Hj) as (w & Hw & He).
      exists w. split; [|exact He]. apply (exited_stable t j _ _ w Hstep Hw He).
    + destruct Hat as (_ & _ & _ & _ & Hall). exfalso.
      destruct (step_sellers t _ _ Hstep) as (v & _ & Hv & Hnot & _).
      pose proof (proj1 (forallb_lookup exited _) Hall t v Hv). congruence.
    + exact Hat.
    + destruct (Hne c eq_refl).
Qed.

(** Once [main] is in [exit] it stays there until the process ends. *)
Lemma in_exit_step (a : actor) (p p' : process) :
  pstep a p = Some p' -> in_exit p -> in_exit p'.
Proof.
  intros H (c & [Hm|Hm]); exists c; destruct a as [|t]; simpl in H.
  - unfold SellTicketsProgram.main_step in H. rewrite Hm in H.
    injection H as <-. right. reflexivity.
  - destruct (seller_step_inv t p p' H) as (_ & _ & Hm' & _).
    left. congruence.
  - unfold SellTicketsProgram.main_step in H. rewrite Hm in H. discriminate.
  - unfold seller_step in H. rewrite Hm in H. discriminate.
Qed.

Lemma in_exit_pexec (sched : list actor) (p p' : process) :
  pexec sched p = Some p' -> in_exit p -> in_exit p'.
Proof.
  revert p. induction sched as [|a sched IH]; intros p H E; simpl in H.
  - injection H as <-. exact E.
  - destruct (pstep a p) as [p1|] eqn:Hs; [|discriminate].
    apply (IH p1 H (in_exit_step a p p1 Hs E)).
Qed.

Lemma process_measure (T : Z) (a : actor) (p p' : process) :
  T <= INT_MAX -> main_ok p -> inv T (shared p) -> pstep a p = Some p' ->
  process_steps_left W p' <= process_steps_left W p - 1 /\
  (~ in_exit p' -> process_steps_left W p' = process_steps_left W p - 1).
Proof.
  intros HT [Hlen Hat] I H. pose proof (steps_left_nonneg T _ I) as Hge.
  unfold process_steps_left, main_todo.
  destruct a as [|t]; simpl in H.
  - pose proof (main_step_shared p p' H) as Hsh. rewrite Hsh.
    unfold SellTicketsProgram.main_step in H.
    destruct (main_at p) as [i|i| |c|c] eqn:Hm; try discriminate.
    + destruct Hat as (_ & Hi & _).
      destruct (i <? W)%nat eqn:Hlt;
        [apply Nat.ltb_lt in Hlt; destruct (create_rc i =? 0)
        | apply Nat.ltb_ge in Hlt];
        injection H as <-; simpl; (split; [lia|]); intros Hne;
        first [lia | destruct Hne; eexists; left; reflexivity].
    + destruct Hat as (_ & Hi & _).
      destruct (i <? W)%nat eqn:Hlt;
        [apply Nat.ltb_lt in Hlt; destruct (join_rc i =? 0);
         [destruct (sellers (shared p) !! i) as [w|]; [|discriminate];
          destruct (exited w); [|discriminate] |]
        | apply Nat.ltb_ge in Hlt];
        injection H as <-; simpl; (split; [lia|]); intros Hne;
        first [lia | destruct Hne; eexists; left; reflexivity].
    + injection H as <-. simpl. split; [lia | intros _; lia].
  - destruct (seller_step_inv t p p' H) as (_ & Hstep & Hm & _).
    destruct (step_measure T t _ _ HT I Hstep) as [Hs _].
    rewrite Hm, Hs. split; [|intros _]; lia.
Qed.

(** Until [main] has printed "All done!" or has called [exit], [main] or a
    seller can take a step. *)
Lemma process_progress (T : Z) (p : process) :
  main_ok p -> inv T (shared p) ->
  (exists i, main_at p = MCreate i \/ main_at p = MJoin i) ->
  exists a p', pstep a p = Some p'.
Proof.
  intros [Hlen Hat] I (i & [Hm|Hm]); rewrite Hm in Hat.
  - exists Main. simpl. unfold SellTicketsProgram.main_step. rewrite Hm.
    destruct (i <? W)%nat; [destruct (create_rc i =? 0)|]; eexists; reflexivity.
  - destruct Hat as (Hc & Hi & _).
    destruct (i <? W)%nat eqn:Hlt;
      [apply Nat.ltb_lt in Hlt|];
      [|exists Main; simpl; unfold SellTicketsProgram.main_step;
        rewrite Hm, Hlt; eexists; reflexivity].
    destruct (join_rc i =? 0) eqn:Hrc;
      [|exists Main; simpl; unfold SellTicketsProgram.main_step;
        rewrite Hm, (proj2 (Nat.ltb_lt _ _) Hlt), Hrc; eexists; reflexivity].
    destruct (sellers (shared p) !! i) as [w|] eqn:Hw;
      [|apply lookup_ge_None in Hw; lia].
    destruct (exited w) eqn:He.
    + exists Main. simpl. unfold SellTicketsProgram.main_step.
      rewrite Hm, (proj2 (Nat.ltb_lt _ _) Hlt), Hrc, Hw, He. eexists; reflexivity.
    + assert (all_exited (shared p) = false) as Hall.
      { destruct (all_exited (shared p)) eqn:E; [|reflexivity].
        pose proof (proj1 (forallb_lookup exited _) E i w Hw). congruence. }
      destruct (progress T _ I Hall) as (t & s' & Hstep).
      destruct (step_sellers t _ _ Hstep) as (v & _ & Hv & _).
      apply lookup_lt_Some in Hv.
      exists (Seller t). simpl. unfold seller_step. rewrite Hm, Hc, Hstep.
      rewrite (proj2 (Nat.ltb_lt _ _)) by lia. eexists; reflexivity.
Qed.

Lemma pexec_inv (T : Z) (sched : list actor) (p p' : process) :
  T <= INT_MAX -> main_ok p -> inv T (shared p) -> pexec sched p = Some p' ->
  main_ok p' /\ inv T (shared p') /\
  Z.of_nat (length sched) <= process_steps_left W p - process_steps_left W p' /\
  (~ in_exit p' ->
   Z.of_nat (length sched) = process_steps_left W p - process_steps_left W p').
Proof.
  intros HT. revert p. induction sched as [|a sched IH]; intros p M I H; simpl in H.
  - injection H as <-. simpl. split; [assumption|]. split; [assumption|].
    split; [lia | intros _; lia].
  - destruct (pstep a p) as [p1|] eqn:Hs; [|discriminate].
    pose proof (main_ok_step a p p1 M Hs) as M1.
    assert (inv T (shared p1)) as I1.
    { destruct a as [|t]; simpl in Hs.
      - rewrite (main_step_shared p p1 Hs). exact I.
      - destruct (seller_step_inv t p p1 Hs) as (_ & Hstep & _).
        apply (inv_step T t _ _ HT I Hstep). }
    destruct (process_measure T a p p1 HT M I Hs) as [Hle Heq].
    destruct (IH p1 M1 I1 H) as (M' & I' & Hlen & Hex).
    split; [assumption|]. split; [assumption|].
    simpl length. split; [lia|]. intros Hne.
    assert (~ in_exit p1) as Hne1.
    { intros E. apply Hne. apply (in_exit_pexec sched p1 p' H E). }
    specialize (Heq Hne1). specialize (Hex Hne). lia.
Qed.

Lemma process_steps_left_init (T : Z) :
  process_steps_left W (process_init W T) = 7 * T + 9 * Z.of_nat W + 2.
Proof.
  unfold process_steps_left, main_todo; simpl.
  rewrite (init_steps_left T W). lia.
Qed.

(** X4: "All done!" comes last.  In every run of the whole program,
    whatever the calls of [pthread_create] and [pthread_join] return,
    the sellers run as they do on their own; and when [main] has
    printed "All done!" it has printed nothing else, all calls returned
    0, every seller has exited, the lock is free, the sellers' counts add
    up to the tickets sold and, with at least one seller, no ticket is
    left.  Before that point [main] has printed no "All done!". *)
Theorem all_done_comes_last (T : Z) (sched : list actor) (p : process) :
  0 <= T <= INT_MAX -> pexec sched (process_init W T) = Some p ->
  exec (sellers_of sched) (init T W) = Some (shared p) /\
  (main_at p = MAllDone ->
     main_out p = [AllDone] /\
     calls_ok create_rc W /\ calls_ok join_rc W /\
     all_exited (shared p) = true /\
     ticketsLock (shared p) = 1 /\
     total_sold (shared p) = T - numTickets (shared p) /\
     (W <> 0%nat -> numTickets (shared p) = 0)) /\
  (main_at p <> MAllDone -> ~ In AllDone (main_out p)).
Proof.
  intros [HT0 HT] H.
  pose proof (pexec_shared sched _ p H) as Hrun. simpl in Hrun.
  destruct (pexec_inv T sched _ p HT (main_ok_init T) (init_inv T W HT0) H)
    as ([Hlen Hat] & I & _ & _).
  split; [exact Hrun|]. split.
  - intros Hm. rewrite Hm in Hat. destruct Hat as (_ & Ho & Hc & Hj & Hall).
    destruct (all_exited_final T _ I Hall) as (_ & Hsold & _ & Hz & _).
    repeat split; try assumption.
    + pose proof (inv_holders T _ I) as Hh. unfold holders in Hh.
      assert (sumZ in_cs (sellers (shared p)) = 0) as Hnone; [|lia].
      apply sumZ_zero. intros i w Hi.
      pose proof (proj1 (forallb_lookup exited _) Hall i w Hi) as He.
      unfold exited, in_cs in *. destruct (at_pc w); congruence.
    + intros HW. apply Hz. intros Hnil. rewrite Hnil in Hlen. simpl in Hlen.
      congruence.
  - intros Hm Hin. destruct (main_at p) as [i|i| |c|c].
    + destruct Hat as (_ & _ & Ho & _). rewrite Ho in Hin. destruct Hin.
    + destruct Hat as (_ & _ & Ho & _). rewrite Ho in Hin. destruct Hin.
    + congruence.
    + destruct Hat as (_ & [(i & _ & _ & _ & _ & Ho)|(i & _ & _ & _ & _ & _ & Ho)]);
        rewrite Ho in Hin; destruct Hin as [E|[]]; discriminate.
    + destruct Hat as (_ & [(i & _ & _ & _ & _ & Ho)|(i & _ & _ & _ & _ & _ & Ho)]);
        rewrite Ho in Hin; destruct Hin as [E|[]]; discriminate.
Qed.

(** X5: the whole program ends.  Whatever the calls return, a run takes
    at most [7 * T + 9 * W + 2] steps, and as long as [main] has neither
    printed "All done!" nor called [exit], [main] or a seller can take a
    step.  A run that ends with "All done!" took exactly that number of
    steps less seven for each ticket left (none, with at least one
    seller). *)
Theorem process_terminates (T : Z) (sched : list actor) (p : process) :
  0 <= T <= INT_MAX -> pexec sched (process_init W T) = Some p ->
  Z.of_nat (length sched) <= 7 * T + 9 * Z.of_nat W + 2 /\
  ((exists i, main_at p = MCreate i \/ main_at p = MJoin i) ->
     exists a p', pstep a p = Some p') /\
  (main_at p = MAllDone ->
     Z.of_nat (length sched) =
       7 * (T - numTickets (shared p)) + 9 * Z.of_nat W + 2 /\
     forall a, pstep a p = None).
Proof.
  intros [HT0 HT] H.
  destruct (pexec_inv T sched _ p HT (main_ok_init T) (init_inv T W HT0) H)
    as (M & I & Hle & Heq).
  rewrite process_steps_left_init in Hle, Heq.
  pose proof (steps_left_nonneg T _ I) as Hge.
  assert (0 <= main_todo W p) as Hmt.
  { destruct M as [_ Hat]. unfold main_todo.
    destruct (main_at p); try lia; destruct Hat as (_ & Hi & _); lia. }
  unfold process_steps_left in *.
  split; [lia|]. split; [apply (process_progress T p M I)|].
  intros Hm. destruct M as [Hlen Hat]. rewrite Hm in Hat.
  destruct Hat as (_ & _ & _ & _ & Hall).
  destruct (all_exited_final T _ I Hall) as (Hsl & _ & _ & _ & Hnone).
  split.
  - rewrite Heq by (intros (c & [E|E]); congruence).
    unfold main_todo. rewrite Hm, Hsl. lia.
  - intros [|t]; simpl.
    + unfold SellTicketsProgram.main_step. rewrite Hm. reflexivity.
    + unfold seller_step. rewrite Hm, (Hnone t).
      destruct (t <? created p)%nat; reflexivity.
Qed.

(** A seller that [main] has not created has not taken a step. *)
Lemma not_created_not_started (sched : list actor) (p p' : process) :
  (forall t w, (created p <= t)%nat -> sellers (shared p) !! t = Some w ->
               w = mkSeller SLoop false 0) ->
  pexec sched p = Some p' ->
  forall t w, (created p' <= t)%nat -> sellers (shared p') !! t = Some w ->
              w = mkSeller SLoop false 0.
Proof.
  revert p. induction sched as [|a sched IH]; intros p J H; simpl in H.
  - injection H as <-. exact J.
  - destruct (pstep a p) as [p1|] eqn:Hs; [|discriminate].
    apply (IH p1); [|exact H]. intros t w Ht Hw.
    destruct a as [|u]; simpl in Hs.
    + rewrite (main_step_shared p p1 Hs) in Hw. apply (J t w); [|exact Hw].
      unfold SellTicketsProgram.main_step in Hs.
      destruct (main_at p);
        repeat match type of Hs with
               | context [if ?c then _ else _] => destruct c
               | context [match ?c with Some _ => _ | None => _ end] => destruct c
               end;
        try discriminate; injection Hs as <-; simpl in Ht; lia.
    + destruct (seller_step_inv u p p1 Hs) as (Hu & Hstep & _ & Hc & _).
      destruct (step_sellers u _ _ Hstep) as (v & v' & _ & _ & Hl).
      rewrite Hl, list_lookup_insert_ne in Hw by lia.
      apply (J t w); [lia | exact Hw].
Qed.

(** X6: [main] calls [exit] only for a call that failed.  When [main]
    is in [exit], and when [exit] has ended the process, the code is -1
    and [main] has printed exactly one line: either the return code of
    the first [pthread_create] that failed, all sellers before that one
    and no other having been created, or, all sellers having been
    created, the return code of the first [pthread_join] that failed.
    A seller that was not created has not taken a step; and what the
    sellers have done, the steps they took while [main] was in [exit]
    included, is a run of the sellers on their own. *)
Theorem exit_only_on_failed_call (T : Z) (sched : list actor) (p : process)
    (code : Z) :
  0 <= T <= INT_MAX -> pexec sched (process_init W T) = Some p ->
  main_at p = MExiting code \/ main_at p = MExit code ->
  code = -1 /\
  ((exists i, (i < W)%nat /\ calls_ok create_rc i /\ create_rc i <> 0 /\
              created p = i /\ main_out p = [CreateFailed (create_rc i)]) \/
   (exists i, (i < W)%nat /\ calls_ok create_rc W /\ calls_ok join_rc i /\
              join_rc i <> 0 /\ created p = W /\
              main_out p = [JoinFailed (join_rc i)])) /\
  (forall t w, (created p <= t)%nat -> sellers (shared p) !! t = Some w ->
               w = mkSeller SLoop false 0) /\
  exec (sellers_of sched) (init T W) = Some (shared p).
Proof.
  intros [HT0 HT] H Hm.
  pose proof (pexec_shared sched _ p H) as Hrun. simpl in Hrun.
  destruct (pexec_inv T sched _ p HT (main_ok_init T) (init_inv T W HT0) H)
    as ([Hlen Hat] & _).
  assert (code = -1 /\ failed_call W create_rc join_rc p) as [Hc Hwhy].
  { destruct Hm as [Hm|Hm]; rewrite Hm in Hat; exact Hat. }
  split; [exact Hc|]. split; [exact Hwhy|]. split; [|exact Hrun].
  apply (not_created_not_started sched (process_init W T) p); [|exact H].
  intros t w _ Hw. simpl in Hw. apply lookup_replicate in Hw as [-> _].
  reflexivity.
Qed.
End SellTicketsProgramFacts.

Section SellTicketsProgramRuns.
Import SellTickets SellTicketsProgram.

Lemma all_done_comes_last_witness :
  exists p,
    pexec 4 (fun _ => 0) (fun _ => 0)
      (replicate 5 Main ++ replicate 252 (Seller 0) ++ replicate 7 (Seller 1)
         ++ replicate 7 (Seller 2) ++ replicate 7 (Seller 3) ++ replicate 5 Main)
      main_process = Some p /\
    main_at p = MAllDone /\ main_out p = [AllDone] /\
    numTickets (shared p) = 0.
Proof.
  eexists. split; [vm_compute; reflexivity|]. split; [reflexivity|].
  refine ((fun H => conj (proj1 H) (proj2 (proj2 (proj2 (proj2 (proj2 (proj2 H))))) _))
    (proj1 (proj2
       (all_done_comes_last 4 (fun _ => 0) (fun _ => 0) 35
          (replicate 5 Main ++ replicate 252 (Seller 0) ++ replicate 7 (Seller 1)
             ++ replicate 7 (Seller 2) ++ replicate 7 (Seller 3) ++ replicate 5 Main)
          _ _ _)) _)).
  - discriminate.
  - unfold INT_MAX; lia.
  - vm_compute; reflexivity.
  - reflexivity.
Defined.

Lemma process_terminates_witness :
  exists p,
    pexec 4 (fun _ => 0) (fun _ => 0)
      ([Main; Seller 0; Main; Seller 1; Seller 0; Main; Main; Seller 3])
      main_process = Some p /\
    exists a p', pstep 4 (fun _ => 0) (fun _ => 0) a p = Some p'.
Proof.
  eexists. split; [vm_compute; reflexivity|].
  refine (proj1 (proj2
    (process_terminates 4 (fun _ => 0) (fun _ => 0) 35
       [Main; Seller 0; Main; Seller 1; Seller 0; Main; Main; Seller 3] _ _ _)) _).
  - unfold INT_MAX; lia.
  - vm_compute; reflexivity.
  - exists 4%nat. left. reflexivity.
Defined.

Lemma exit_only_on_failed_call_witness :
  exists p,
    pexec 4 (fun i => if Nat.eqb i 2 then 11 else 0) (fun _ => 0)
      [Main; Main; Seller 0; Seller 1; Seller 0; Main;
       Seller 0; Seller 0; Seller 0; Seller 0; Main]
      main_process = Some p /\
    main_at p = MExit (-1) /\
    main_out p = [CreateFailed 11] /\ created p = 2%nat /\
    output (shared p) = [SoldOne 0 34] /\
    exec [0; 1; 0; 0; 0; 0; 0]%nat (init 35 4) = Some (shared p).
Proof.
  eexists. split; [vm_compute; reflexivity|]. split; [reflexivity|].
  split; [reflexivity|]. split; [reflexivity|]. split; [reflexivity|].
  refine (proj2 (proj2 (proj2
    (exit_only_on_failed_call 4 (fun i => if Nat.eqb i 2 then 11 else 0) (fun _ => 0)
       35 [Main; Main; Seller 0; Seller 1; Seller 0; Main;
           Seller 0; Seller 0; Seller 0; Seller 0; Main] _ (-1) _ _ _)))).
  - unfold INT_MAX; lia.
  - vm_compute; reflexivity.
  - right. reflexivity.
Defined.
End SellTicketsProgramRuns.

(** * The simulated delay *)

(** X7: every simulated delay lasts from half a second to just under
    two seconds.  On a number [random_r] can deliver, which is never
    negative, the argument of [usleep] is 500000 plus that number modulo
    1500000: between 500000 and 1999999 microseconds. *)
Theorem usleep_arg_range (result : Z) :
  0 <= result ->
  usleep_arg result = 500000 + result mod 1500000 /\
  500000 <= usleep_arg result <= 1999999.
Proof.
  intros H. unfold usleep_arg.
  rewrite Z.rem_mod_nonneg by lia.
  pose proof (Z.mod_pos_bound result 1500000 ltac:(lia)) as Hm.
  rewrite wrap_int_id by (unfold INT_MIN, INT_MAX; lia). lia.
Qed.

Lemma usleep_arg_range_witness :
  usleep_arg 1804289383 = 1789383 /\ 500000 <= usleep_arg 1804289383 <= 1999999.
Proof.
  split; [reflexivity|].
  refine (proj2 (usleep_arg_range 1804289383 _)). lia.
Defined.

(** * The output of the writer and of the reader *)

Section ReaderWriterOutputFacts.
Import ReaderWriter ReaderWriterOutput.
Variable random_r : nat -> Z.

Ltac arith :=
  unfold NUM_TOTAL_BUFFERS, DATA_LENGTH, INT_MIN, INT_MAX in *;
  try lia; Z.to_euclidean_division_equations; lia.

Ltac split_step H :=
  match type of H with
  | context [if ?c then _ else _] =>
      let E := fresh "E" in
      destruct c eqn:E; [| try discriminate H]
  | _ => idtac
  end.

Lemma prepared_S (n : nat) :
  prepared random_r (S n) = prepared random_r n ++ [PrepareData (random_r n)].
Proof. unfold prepared. rewrite seq_S, map_app. reflexivity. Qed.

Lemma rotation_S (p : Z) (n : nat) :
  rotation p (S n) = rotation p n ++ [(p + Z.of_nat n) mod NUM_TOTAL_BUFFERS].
Proof. unfold rotation. rewrite seq_S, map_app. reflexivity. Qed.

Lemma inv_chars_init (writePt0 : Z) (junk : nat -> Z) :
  inv_chars random_r (init writePt0 junk).
Proof.
  constructor; unfold w_prepared, written; simpl; try reflexivity; lia.
Qed.

Lemma inv_chars_step (t : tid) (s s' : state) :
  inv_sem s -> inv_chars random_r s ->
  step random_r t s = Running s' -> inv_chars random_r s'.
Proof.
  intros [Hwi Hwl Hri Hrl He Hf Hee Hfe Hwo Hro Hrc Hbl]
         [Hcalls Hdata Hw Hr] H.
  destruct s as [e f b wp wi wpt dw wc rp ri rpt dr wo ro].
  unfold written, w_holds, w_stored, w_advanced, w_prepared,
         r_holds, r_loaded, r_advanced, r_posted in *; simpl in *.
  destruct t; simpl in H; unfold step_writer, step_reader in H; simpl in H.
  - destruct wp; try discriminate H; split_step H; injection H as <-;
      constructor; unfold written, w_prepared; simpl;
      rewrite ?wrap_int_id by arith; try assumption; try lia.
    + intros _. replace wc with (Z.to_nat wi) by lia. reflexivity.
    + rewrite map_app, length_app, Nat.add_1_r, prepared_S, <- Hw. simpl.
      rewrite Hdata by reflexivity.
      replace (length wo) with (Z.to_nat wi) by lia. reflexivity.
  - destruct rp; try discriminate H; split_step H.
    all: try (destruct (b !! Z.to_nat rpt) as [c|] eqn:Hb; [|discriminate H]).
    all: injection H as <-; constructor; unfold written, w_prepared; simpl;
      try assumption.
    rewrite map_app, length_app, Nat.add_1_r, rotation_S, <- Hr. simpl.
    do 2 f_equal. rewrite Hrc. f_equal. lia.
Qed.

Lemma inv_wslots_step (writePt0 : Z) (t : tid) (s s' : state) :
  inv_sem s -> inv_cur writePt0 s -> inv_wslots writePt0 s ->
  step random_r t s = Running s' -> inv_wslots writePt0 s'.
Proof.
  intros [Hwi Hwl Hri Hrl He Hf Hee Hfe Hwo Hro Hrc Hbl] Hc Hs H.
  destruct s as [e f b wp wi wpt dw wc rp ri rpt dr wo ro].
  unfold inv_wslots, inv_cur, w_stored, w_advanced in *; simpl in *.
  destruct t; simpl in H; unfold step_writer, step_reader in H; simpl in H.
  - destruct wp; try discriminate H; split_step H; injection H as <-;
      simpl; try assumption.
    rewrite map_app, length_app, Nat.add_1_r, rotation_S, <- Hs. simpl.
    do 2 f_equal. rewrite Hc. f_equal. lia.
  - destruct rp; try discriminate H; split_step H.
    all: try (destruct (b !! Z.to_nat rpt) as [c|] eqn:Hb; [|discriminate H]).
    all: injection H as <-; simpl; assumption.
Qed.

Lemma exec_inv_chars (sched : list tid) (s s' : state) :
  inv_sem s -> inv_chars random_r s ->
  exec random_r sched s = Running s' -> inv_chars random_r s'.
Proof.
  revert s. induction sched as [|t sched IH]; intros s I Hc H; simpl in H.
  - injection H as <-. assumption.
  - destruct (step random_r t s) as [s1| |] eqn:Hs; try discriminate H.
    apply (IH s1 (inv_sem_step random_r t s s1 I Hs)
              (inv_chars_step t s s1 I Hc Hs) H).
Qed.

Lemma exec_inv_wslots (writePt0 : Z) (sched : list tid) (s s' : state) :
  inv_sem s -> inv_cur writePt0 s -> inv_wslots writePt0 s ->
  exec random_r sched s = Running s' -> inv_wslots writePt0 s'.
Proof.
  revert s. induction sched as [|t sched IH]; intros s I Hc Hw H; simpl in H.
  - injection H as <-. assumption.
  - destruct (step random_r t s) as [s1| |] eqn:Hs; try discriminate H.
    apply (IH s1 (inv_sem_step random_r t s s1 I Hs)
              (inv_cur_step random_r writePt0 t s s1 I Hc Hs)
              (inv_wslots_step writePt0 t s s1 I Hc Hw Hs) H).
Qed.

Lemma rotation_in_array (p : Z) (n : nat) (k : nat) (j : Z) :
  rotation p n !! k = Some j -> 0 <= j < NUM_TOTAL_BUFFERS.
Proof.
  unfold rotation. intros H.
  apply list_lookup_fmap_Some in H as (i & -> & _). arith.
Qed.

Lemma prepared_take (n m : nat) :
  (n <= m)%nat -> take n (prepared random_r m) = prepared random_r n.
Proof.
  intros H. unfold prepared. rewrite firstn_map. f_equal.
  replace m with (n + (m - n))%nat by lia.
  rewrite seq_app, take_app_length'; [reflexivity | symmetry; apply length_seq].
Qed.

Lemma PrepareData_letter (result : Z) :
  0 <= result -> is_letter (PrepareData result).
Proof.
  intros H. unfold is_letter, PrepareData, to_char.
  rewrite Z.rem_mod_nonneg by lia.
  pose proof (Z.mod_pos_bound result 25 ltac:(lia)) as Hm.
  rewrite Z.mod_small by lia. lia.
Qed.

Lemma prepared_letters (n : nat) :
  (forall k, 0 <= random_r k) -> Forall is_letter (prepared random_r n).
Proof.
  intros H. induction n as [|n IH]; [constructor|].
  rewrite prepared_S. apply Forall_app. split; [exact IH|].
  constructor; [apply PrepareData_letter, H | constructor].
Qed.

(** X8: first in, first out.  When the writer's cursor starts at slot 0,
    in every run the characters the reader has read are the first
    characters the writer has written, in the same order: the [k]-th one
    is the one prepared from the [k]-th number of the generator.  No
    step leaves the array.  Once both threads have exited the reader has
    read the 20 characters written; and when the generator delivers no
    negative number every character read is a letter from 'A' to 'Y'. *)
Theorem fifo_when_cursor_starts_at_zero (junk : nat -> Z)
    (sched : list tid) (s : state) :
  exec random_r sched (init 0 junk) = Running s ->
  consumed s = take (length (consumed s)) (written s) /\
  consumed s = prepared random_r (length (consumed s)) /\
  (forall t, step random_r t s <> Fault) /\
  (finished s = true ->
     consumed s = written s /\ consumed s = prepared random_r 20) /\
  ((forall k, 0 <= random_r k) -> Forall is_letter (consumed s)).
Proof.
  intros H.
  destruct (fifo_from_slot_zero random_r junk sched) as [_ Hfifo].
  destruct (Hfifo s H) as (_ & Hpre & _ & _ & Hfin).
  pose proof (inv_sem_init 0 junk) as I0.
  assert (inv_cur 0 (init 0 junk)) as C0 by (apply inv_cur_init; arith).
  destruct (exec_inv_rw random_r sched _ s I0 H) as [I _].
  pose proof (exec_inv_cur random_r 0 sched _ s I0 C0 H) as C.
  pose proof (exec_inv_chars sched _ s I0 (inv_chars_init 0 junk) H) as Ch.
  assert (consumed s = prepared random_r (length (consumed s))) as Hcons.
  { rewrite Hpre at 1. rewrite (ch_written _ s Ch).
    apply prepared_take.
    assert (length (take (length (consumed s)) (written s)) = length (consumed s))
      as Hl by (rewrite <- Hpre; reflexivity).
    rewrite length_take in Hl. unfold written in Hl. rewrite length_map in Hl. lia. }
  split; [exact Hpre|]. split; [exact Hcons|]. split; [|split].
  - intros [|]; [apply (writer_no_fault random_r 0 s C)
                | apply (reader_no_fault random_r s I)].
  - intros F. destruct (Hfin F) as [Heq Hlen]. split; [exact Heq|].
    rewrite Hcons, Hlen. reflexivity.
  - intros Hnn. rewrite Hcons. apply (prepared_letters _ Hnn).
Qed.

(** X9: the writer is never behind the reader and never more than five
    characters ahead.  In every run, wherever the writer's cursor
    started, the reader has loaded at most as many characters as the
    writer has stored, the writer has stored at most five more than the
    reader has loaded, and each semaphore counts from 0 to 5. *)
Theorem writer_at_most_five_ahead (writePt0 : Z) (junk : nat -> Z)
    (sched : list tid) (s : state) :
  exec random_r sched (init writePt0 junk) = Running s ->
  (length (reader_out s) <= length (writer_out s))%nat /\
  (length (writer_out s) <= length (reader_out s) + 5)%nat /\
  0 <= emptyBuffers s <= 5 /\ 0 <= fullBuffers s <= 5.
Proof.
  intros H.
  destruct (exec_inv_rw random_r sched _ s (inv_sem_init writePt0 junk) H) as [I _].
  destruct I as [Hwi Hwl Hri Hrl He Hf Hee Hfe Hwo Hro Hrc Hbl].
  unfold w_holds, w_stored, r_holds, r_loaded, r_posted in *.
  destruct (w_pc s), (r_pc s); arith.
Qed.

(** X10: both threads go round the array.  When the writer's cursor
    starts at a slot [writePt0] of the array, the [k]-th line of the
    writer names slot [(writePt0 + k) mod 5]; the [k]-th line of the
    reader names slot [k mod 5]; so every slot printed is one of the
    five. *)
Theorem slots_in_rotation (writePt0 : Z) (junk : nat -> Z)
    (sched : list tid) (s : state) :
  0 <= writePt0 < NUM_TOTAL_BUFFERS ->
  exec random_r sched (init writePt0 junk) = Running s ->
  map fst (writer_out s) = rotation writePt0 (length (writer_out s)) /\
  map fst (reader_out s) = rotation 0 (length (reader_out s)) /\
  (forall k j c, writer_out s !! k = Some (j, c) -> 0 <= j < 5) /\
  (forall k j c, reader_out s !! k = Some (j, c) -> 0 <= j < 5).
Proof.
  intros Hw0 H.
  pose proof (inv_sem_init writePt0 junk) as I0.
  pose proof (inv_cur_init writePt0 junk Hw0) as C0.
  pose proof (exec_inv_chars sched _ s I0 (inv_chars_init writePt0 junk) H) as Ch.
  assert (inv_wslots writePt0 (init writePt0 junk)) as W0 by reflexivity.
  pose proof (exec_inv_wslots writePt0 sched _ s I0 C0 W0 H) as Hws.
  pose proof (ch_read_slots _ s Ch) as Hrs. unfold inv_wslots in Hws.
  split; [exact Hws|]. split; [exact Hrs|].
  split; intros k j c Hk.
  - apply (rotation_in_array writePt0 (length (writer_out s)) k).
    rewrite <- Hws, list_lookup_fmap, Hk. reflexivity.
  - apply (rotation_in_array 0 (length (reader_out s)) k).
    rewrite <- Hrs, list_lookup_fmap, Hk. reflexivity.
Qed.

(** X11: one call of the generator for each character.  In every run,
    wherever the writer's cursor started, the [k]-th character the
    writer has written is [PrepareData] of the [k]-th number of its
    generator; the generator has been called once for each character
    written and once more when a character is prepared and not yet
    stored; and when the generator delivers no negative number every
    character written is a letter from 'A' to 'Y'. *)
Theorem characters_written (writePt0 : Z) (junk : nat -> Z)
    (sched : list tid) (s : state) :
  exec random_r sched (init writePt0 junk) = Running s ->
  written s = prepared random_r (length (written s)) /\
  Z.of_nat (w_calls s) =
    Z.of_nat (length (written s)) + (w_prepared s - w_stored s) /\
  ((forall k, 0 <= random_r k) -> Forall is_letter (written s)).
Proof.
  intros H.
  pose proof (inv_sem_init writePt0 junk) as I0.
  destruct (exec_inv_rw random_r sched _ s I0 H) as [I _].
  pose proof (exec_inv_chars sched _ s I0 (inv_chars_init writePt0 junk) H) as Ch.
  pose proof (ch_written _ s Ch) as Hw.
  assert (length (written s) = length (writer_out s)) as Hl
    by (unfold written; apply length_map).
  split; [rewrite Hl; exact Hw|]. split.
  - rewrite Hl, (ch_calls _ s Ch), (w_out_len s I). lia.
  - intros Hnn. rewrite Hw. apply (prepared_letters _ Hnn).
Qed.

(** X12: at the end all permits are back.  Once both threads have
    exited, wherever the writer's cursor started, [emptyBuffers] counts
    5 and [fullBuffers] counts 0, and each thread has printed 20 lines. *)
Theorem permits_returned_at_exit (writePt0 : Z) (junk : nat -> Z)
    (sched : list tid) (s : state) :
  exec random_r sched (init writePt0 junk) = Running s ->
  finished s = true ->
  emptyBuffers s = 5 /\ fullBuffers s = 0 /\
  length (writer_out s) = 20%nat /\ length (reader_out s) = 20%nat.
Proof.
  intros H F.
  destruct (exec_inv_rw random_r sched _ s (inv_sem_init writePt0 junk) H) as [I _].
  destruct (finished_final random_r s I F) as (_ & _ & _ & Hw & Hr & He & Hf & _).
  repeat split; assumption.
Qed.
End ReaderWriterOutputFacts.

Section ReaderWriterOutputRuns.
Import ReaderWriter ReaderWriterOutput.

Lemma fifo_when_cursor_starts_at_zero_witness :
  exists s,
    exec (fun k => 7 * Z.of_nat k)
      (replicate 18 TWriter ++ replicate 12 TReader ++ replicate 12 TWriter)
      (init 0 (fun _ => 0)) = Running s /\
    written s = [65; 72; 79; 86; 68] /\
    consumed s = [65; 72] /\
    consumed s = take (length (consumed s)) (written s).
Proof.
  eexists. split; [vm_compute; reflexivity|].
  split; [reflexivity|]. split; [reflexivity|].
  refine (proj1
    (fifo_when_cursor_starts_at_zero (fun k => 7 * Z.of_nat k) (fun _ => 0)
       (replicate 18 TWriter ++ replicate 12 TReader ++ replicate 12 TWriter)
       _ _)).
  vm_compute; reflexivity.
Defined.

Lemma writer_at_most_five_ahead_witness :
  exists s,
    exec (fun _ => 0) (replicate 32 TWriter) (init 2 (fun _ => 0)) = Running s /\
    length (writer_out s) = 5%nat /\ length (reader_out s) = 0%nat /\
    step (fun _ => 0) TWriter s = Disabled /\
    (length (writer_out s) <= length (reader_out s) + 5)%nat.
Proof.
  eexists. split; [vm_compute; reflexivity|].
  split; [reflexivity|]. split; [reflexivity|]. split; [reflexivity|].
  refine (proj1 (proj2
    (writer_at_most_five_ahead (fun _ => 0) 2 (fun _ => 0)
       (replicate 32 TWriter) _ _))).
  vm_compute; reflexivity.
Defined.

Lemma slots_in_rotation_witness :
  exists s,
    exec (fun _ => 0) (replicate 18 TWriter ++ replicate 9 TReader)
      (init 3 (fun _ => 0)) = Running s /\
    map fst (writer_out s) = [3; 4; 0] /\
    map fst (reader_out s) = [0; 1] /\
    map fst (writer_out s) = rotation 3 (length (writer_out s)).
Proof.
  eexists. split; [vm_compute; reflexivity|].
  split; [reflexivity|]. split; [reflexivity|].
  refine (proj1
    (slots_in_rotation (fun _ => 0) 3 (fun _ => 0)
       (replicate 18 TWriter ++ replicate 9 TReader) _ _ _)).
  - unfold NUM_TOTAL_BUFFERS; lia.
  - vm_compute; reflexivity.
Defined.

Lemma characters_written_witness :
  exists s,
    exec (fun k => 100 + Z.of_nat k) (replicate 14 TWriter)
      (init 4 (fun _ => 0)) = Running s /\
    written s = [65; 66] /\ w_calls s = 3%nat /\
    written s = prepared (fun k => 100 + Z.of_nat k) (length (written s)).
Proof.
  eexists. split; [vm_compute; reflexivity|].
  split; [reflexivity|]. split; [reflexivity|].
  refine (proj1
    (characters_written (fun k => 100 + Z.of_nat k) 4 (fun _ => 0)
       (replicate 14 TWriter) _ _)).
  vm_compute; reflexivity.
Defined.

Lemma permits_returned_at_exit_witness :
  exists s,
    exec (fun _ => 0)
      (replicate 30 TWriter
         ++ concat (replicate 15 (replicate 6 TReader ++ replicate 6 TWriter))
         ++ [TWriter] ++ replicate 31 TReader)
      (init 1 (fun _ => 0)) = Running s /\
    finished s = true /\
    emptyBuffers s = 5 /\ fullBuffers s = 0.
Proof.
  eexists. split; [vm_compute; reflexivity|]. split; [reflexivity|].
  refine ((fun H => conj (proj1 H) (proj1 (proj2 H)))
    (permits_returned_at_exit (fun _ => 0) 1 (fun _ => 0)
       (replicate 30 TWriter
          ++ concat (replicate 15 (replicate 6 TReader ++ replicate 6 TWriter))
          ++ [TWriter] ++ replicate 31 TReader) _ _ _)).
  - vm_compute; reflexivity.
  - reflexivity.
Defined.
End ReaderWriterOutputRuns.

(** * The whole program of readerWriter.c *)

Section ReaderWriterProgramFacts.
Import ReaderWriter ReaderWriterProgram.
Variable random_r : nat -> Z.
Variable rc : return_codes.

Local Abbreviation pstep := (ReaderWriterProgram.pstep random_r rc).
Local Abbreviation pexec := (ReaderWriterProgram.pexec random_r rc).
Local Abbreviation main_ok := (ReaderWriterProgram.main_ok rc).

Ltac main_cases H :=
  repeat match type of H with
         | context [if ?c then _ else _] => destruct c eqn:?
         | context [match w_pc ?s with _ => _ end] => destruct (w_pc s) eqn:?
         | context [match r_pc ?s with _ => _ end] => destruct (r_pc s) eqn:?
         end.

Lemma rw_main_step_shared (p p' : process) :
  main_step rc p = PRunning p' -> shared p' = shared p.
Proof.
  unfold main_step. intros H.
  destruct (main_at p); main_cases H; try discriminate H;
    injection H as <-; reflexivity.
Qed.

Lemma main_step_no_fault (p : process) : main_step rc p <> PFault.
Proof.
  unfold main_step. intros H.
  destruct (main_at p); main_cases H; discriminate H.
Qed.

Lemma thread_step_inv (t : tid) (p p' : process) :
  thread_step random_r t p = PRunning p' ->
  thread_created t p = true /\
  step random_r t (shared p) = Running (shared p') /\
  main_at p' = main_at p /\ writer_created p' = writer_created p /\
  reader_created p' = reader_created p /\ main_out p' = main_out p /\
  main_at p <> MAllDone /\ (forall c, main_at p <> MExit c).
Proof.
  unfold thread_step. intros H.
  assert (main_at p <> MAllDone /\ (forall c, main_at p <> MExit c)) as [Hd He].
  { split; [|intros c]; intros E; rewrite E in H; discriminate. }
  assert ((if thread_created t p
           then match step random_r t (shared p) with
                | Running s' =>
                    PRunning (mkProcess (main_at p) (writer_created p)
                                (reader_created p) s' (main_out p))
                | Disabled => PDisabled
                | Fault => PFault
                end
           else PDisabled) = PRunning p') as H'.
  { destruct (main_at p); try exact H; discriminate. }
  clear H. destruct (thread_created t p); [|discriminate].
  destruct (step random_r t (shared p)) as [s'| |]; try discriminate.
  injection H' as <-. simpl. repeat split; auto.
Qed.

(** The threads of the process run as the two threads run on their own. *)
Lemma rw_pexec_shared (sched : list actor) (p p' : process) :
  pexec sched p = PRunning p' ->
  exec random_r (threads_of sched) (shared p) = Running (shared p').
Proof.
  revert p. induction sched as [|a sched IH]; intros p H; simpl in H.
  - injection H as <-. reflexivity.
  - destruct (pstep a p) as [p1| |] eqn:Hs; try discriminate.
    destruct a as [|t]; simpl in Hs |- *.
    + rewrite <- (rw_main_step_shared p p1 Hs). apply (IH p1 H).
    + destruct (thread_step_inv t p p1 Hs) as (_ & Hstep & _).
      rewrite Hstep. apply (IH p1 H).
Qed.

(** A thread that has exited stays where it is. *)
Lemma writer_done_stable (t : tid) (s s' : state) :
  step random_r t s = Running s' -> w_pc s = WDone -> w_pc s' = WDone.
Proof.
  intros H Hd. destruct t; simpl in H; unfold step_writer, step_reader in H.
  - rewrite Hd in H. discriminate.
  - destruct (r_pc s);
      repeat match type of H with
             | context [if ?c then _ else _] => destruct c
             | context [match ?c with Some _ => _ | None => _ end] => destruct c
             end;
      try discriminate; injection H as <-; exact Hd.
Qed.

Lemma finished_no_step (t : tid) (s : state) :
  finished s = true -> step random_r t s = Disabled.
Proof.
  unfold finished. intros F.
  destruct (w_pc s) eqn:Ew; try discriminate; destruct (r_pc s) eqn:Er;
    try discriminate.
  destruct t; simpl; unfold step_writer, step_reader; rewrite ?Ew, ?Er; reflexivity.
Qed.

Lemma rw_main_ok_init (writePt0 : Z) (junk : nat -> Z) :
  main_ok (process_init writePt0 junk).
Proof. repeat split. Qed.

Lemma rw_main_ok_step (a : actor) (p p' : process) :
  main_ok p -> pstep a p = PRunning p' -> main_ok p'.
Proof.
  intros M H. destruct a as [|t]; simpl in H.
  - unfold main_step in H. unfold ReaderWriterProgram.main_ok, failed_call in *.
    destruct rc as [cw cr jw jr]; simpl in *.
    destruct (main_at p) eqn:Hm; main_cases H; try discriminate H;
      injection H as <-; simpl;
      repeat match goal with
             | E : (_ =? _) = true |- _ => apply Z.eqb_eq in E
             | E : (_ =? _) = false |- _ => apply Z.eqb_neq in E
             | M : _ /\ _ |- _ => destruct M
             end;
      subst; try rewrite H1; simpl.
    all: try (repeat split; auto; fail).
    all: try (unfold finished;
              repeat match goal with
                     | E : main_out _ = _ |- _ => rewrite E
                     | E : w_pc _ = _ |- _ => rewrite E
                     | E : r_pc _ = _ |- _ => rewrite E
                     | E : mkReturnCodes _ _ _ _ = _ |- _ => rewrite E
                     end;
              simpl; repeat split; auto; fail).
    all: try (split; [reflexivity|]; auto 10; fail).
    all: try (split; [reflexivity|]; right; auto 10; fail).
    all: try (split; [reflexivity|]; right; right; auto 10; fail).
    all: try (split; [reflexivity | assumption]).
  - destruct (thread_step_inv t p p' H) as (_ & Hstep & Hm & Hw & Hr & Ho & Hd & He).
    unfold ReaderWriterProgram.main_ok, failed_call in *. rewrite Hm, Hw, Hr, Ho.
    destruct (main_at p) eqn:Hat; try exact M; try congruence.
    + destruct M as (H1 & H2 & H3 & H4 & H5 & H6 & H7).
      repeat split; try assumption.
      apply (writer_done_stable t _ _ Hstep H7).
    + destruct M as (_ & _ & F).
      rewrite (finished_no_step t _ F) in Hstep. discriminate.
    + (* a thread steps while main is in exit *)
      destruct M as [Hc [D|[D|[D|D]]]]; (split; [exact Hc|]).
      * left. exact D.
      * right. left. exact D.
      * right. right. left. exact D.
      * right. right. right.
        destruct D as (D1 & D2 & D3 & D4 & D5 & D6).
        repeat split; try assumption.
        apply (writer_done_stable t _ _ Hstep D5).
Qed.

(** Once [main] is in [exit] it stays there until the process ends. *)
Lemma rw_in_exit_step (a : actor) (p p' : process) :
  pstep a p = PRunning p' -> in_exit p -> in_exit p'.
Proof.
  intros H (c & [Hm|Hm]); exists c; destruct a as [|t]; simpl in H.
  - unfold main_step in H. rewrite Hm in H. injection H as <-. right. reflexivity.
  - destruct (thread_step_inv t p p' H) as (_ & _ & Hm' & _). left. congruence.
  - unfold main_step in H. rewrite Hm in H. discriminate.
  - unfold thread_step in H. rewrite Hm in H. discriminate.
Qed.

Lemma rw_in_exit_pexec (sched : list actor) (p p' : process) :
  pexec sched p = PRunning p' -> in_exit p -> in_exit p'.
Proof.
  revert p. induction sched as [|a sched IH]; intros p H E; simpl in H.
  - injection H as <-. exact E.
  - destruct (pstep a p) as [p1| |] eqn:Hs; try discriminate.
    apply (IH p1 H (rw_in_exit_step a p p1 Hs E)).
Qed.

Lemma rw_process_measure (a : actor) (p p' : process) :
  inv_sem (shared p) -> pstep a p = PRunning p' ->
  process_steps_left p' <= process_steps_left p - 1 /\
  (~ in_exit p' -> process_steps_left p' = process_steps_left p - 1).
Proof.
  intros I H. unfold process_steps_left, main_todo.
  destruct a as [|t]; simpl in H.
  - rewrite (rw_main_step_shared p p' H). unfold main_step in H.
    destruct (main_at p); main_cases H; try discriminate H;
      injection H as <-; simpl; (split; [lia|]); intros Hne;
      first [lia | destruct Hne; eexists; left; reflexivity].
  - destruct (thread_step_inv t p p' H) as (_ & Hstep & Hm & _).
    rewrite Hm, (step_measure_rw random_r t _ _ I Hstep). split; [|intros _]; lia.
Qed.

(** Until [main] has returned or has called [exit], [main] or a thread
    can take a step. *)
Lemma rw_process_progress (writePt0 : Z) (p : process) :
  main_ok p -> inv_sem (shared p) -> inv_cur writePt0 (shared p) ->
  main_at p <> MAllDone -> (forall c, main_at p <> MExit c) ->
  exists a p', pstep a p = PRunning p'.
Proof.
  intros M I C Hd He. unfold ReaderWriterProgram.main_ok in M.
  assert (forall t, thread_created t p = true -> finished (shared p) = false ->
            main_at p = MJoinWriter \/ main_at p = MJoinReader ->
            writer_created p = true -> reader_created p = true ->
            exists a p', pstep a p = PRunning p') as Hthread.
  { intros _ _ Hfin Hm Hw Hr.
    destruct (progress_rw random_r writePt0 _ I C Hfin) as (t & s' & Hstep).
    exists (Thread t). simpl. unfold thread_step.
    assert (thread_created t p = true) as -> by (destruct t; assumption).
    rewrite Hstep. destruct Hm as [-> | ->]; eexists; reflexivity. }
  destruct (main_at p) eqn:Hm; try congruence.
  - exists Main. simpl. unfold main_step. rewrite Hm.
    destruct (create_writer_rc rc =? 0); eexists; reflexivity.
  - exists Main. simpl. unfold main_step. rewrite Hm.
    destruct (create_reader_rc rc =? 0); eexists; reflexivity.
  - destruct M as (Hw & Hr & _).
    destruct (join_writer_rc rc =? 0) eqn:Hrc;
      [|exists Main; simpl; unfold main_step; rewrite Hm, Hrc; eexists; reflexivity].
    destruct (w_pc (shared p)) eqn:Ew;
      try (apply (Hthread TWriter Hw); auto; unfold finished; rewrite Ew; reflexivity).
    exists Main. simpl. unfold main_step. rewrite Hm, Hrc, Ew. eexists; reflexivity.
  - destruct M as (Hw & Hr & _).
    destruct (join_reader_rc rc =? 0) eqn:Hrc;
      [|exists Main; simpl; unfold main_step; rewrite Hm, Hrc; eexists; reflexivity].
    destruct (r_pc (shared p)) eqn:Er;
      try (apply (Hthread TWriter Hw); auto; unfold finished; rewrite Er;
           destruct (w_pc (shared p)); reflexivity).
    exists Main. simpl. unfold main_step. rewrite Hm, Hrc, Er. eexists; reflexivity.
  - exists Main. simpl. unfold main_step. rewrite Hm. eexists; reflexivity.
  - exists Main. simpl. unfold main_step. rewrite Hm. eexists; reflexivity.
Qed.

Lemma rw_pexec_inv (sched : list actor) (p p' : process) :
  main_ok p -> inv_sem (shared p) -> pexec sched p = PRunning p' ->
  main_ok p' /\ inv_sem (shared p') /\
  Z.of_nat (length sched) <= process_steps_left p - process_steps_left p' /\
  (~ in_exit p' ->
   Z.of_nat (length sched) = process_steps_left p - process_steps_left p').
Proof.
  revert p. induction sched as [|a sched IH]; intros p M I H; simpl in H.
  - injection H as <-. simpl. split; [assumption|]. split; [assumption|].
    split; [lia | intros _; lia].
  - destruct (pstep a p) as [p1| |] eqn:Hs; try discriminate.
    pose proof (rw_main_ok_step a p p1 M Hs) as M1.
    assert (inv_sem (shared p1)) as I1.
    { destruct a as [|t]; simpl in Hs.
      - rewrite (rw_main_step_shared p p1 Hs). exact I.
      - destruct (thread_step_inv t p p1 Hs) as (_ & Hstep & _).
        apply (inv_sem_step random_r t _ _ I Hstep). }
    destruct (rw_process_measure a p p1 I Hs) as [Hle Heq].
    destruct (IH p1 M1 I1 H) as (M' & I' & Hlen & Hex).
    split; [assumption|]. split; [assumption|].
    simpl length. split; [lia|]. intros Hne.
    assert (~ in_exit p1) as Hne1.
    { intros E. apply Hne. apply (rw_in_exit_pexec sched p1 p' H E). }
    specialize (Heq Hne1). specialize (Hex Hne). lia.
Qed.

Lemma rw_pexec_fault (sched : list actor) (p : process) :
  pexec sched p = PFault -> exec random_r (threads_of sched) (shared p) = Fault.
Proof.
  revert p. induction sched as [|a sched IH]; intros p H; simpl in H.
  - discriminate.
  - destruct (pstep a p) as [p1| |] eqn:Hs; try discriminate.
    + destruct a as [|t]; simpl in Hs |- *.
      * rewrite <- (rw_main_step_shared p p1 Hs). apply (IH p1 H).
      * destruct (thread_step_inv t p p1 Hs) as (_ & Hstep & _).
        rewrite Hstep. apply (IH p1 H).
    + destruct a as [|t]; simpl in Hs |- *.
      * destruct (main_step_no_fault p Hs).
      * unfold thread_step in Hs.
        destruct (main_at p); try discriminate;
          destruct (thread_created t p); try discriminate;
          destruct (step random_r t (shared p)); try discriminate; reflexivity.
Qed.

(** X13: the semaphores outlive the threads.  In every run of the whole
    program, wherever the writer's cursor started and whatever the four
    calls return, the two threads run as they do on their own.  When
    [main] destroys the semaphores, and when it has printed "All Done!",
    all four calls have returned 0, both threads have exited after 20
    iterations each, and the semaphores count 5 and 0.  "All Done!" is
    the only line [main] has printed then, and it has not printed it
    before. *)
Theorem semaphores_outlive_threads (writePt0 : Z) (junk : nat -> Z)
    (sched : list actor) (p : process) :
  pexec sched (process_init writePt0 junk) = PRunning p ->
  exec random_r (threads_of sched) (init writePt0 junk) = Running (shared p) /\
  (main_at p = MFinish \/ main_at p = MAllDone ->
     rc = mkReturnCodes 0 0 0 0 /\
     finished (shared p) = true /\
     puts (shared p) = 20 /\ takes (shared p) = 20 /\
     emptyBuffers (shared p) = 5 /\ fullBuffers (shared p) = 0) /\
  (main_at p = MAllDone -> main_out p = [AllDone]) /\
  (main_at p <> MAllDone -> ~ In AllDone (main_out p)).
Proof.
  intros H.
  pose proof (rw_pexec_shared sched _ p H) as Hrun. simpl in Hrun.
  destruct (rw_pexec_inv sched _ p (rw_main_ok_init writePt0 junk)
              (inv_sem_init writePt0 junk) H) as (M & I & _ & _).
  unfold ReaderWriterProgram.main_ok, failed_call in M.
  split; [exact Hrun|]. split; [|split].
  - intros [Hm|Hm]; rewrite Hm in M; destruct M as (_ & Hrc & F);
      destruct (finished_final random_r _ I F) as (_ & Hp & Ht & _ & _ & He & Hf & _);
      repeat split; assumption.
  - intros Hm. rewrite Hm in M. apply M.
  - intros Hm Hin. destruct (main_at p); try congruence;
      repeat match goal with
             | M : _ /\ _ |- _ => destruct M
             | M : _ \/ _ |- _ => destruct M
             end;
      match goal with
      | E : main_out p = _ |- _ => rewrite E in Hin
      end;
      simpl in Hin; repeat destruct Hin as [Hin|Hin]; try discriminate; assumption.
Qed.

(** X14: the whole program ends.  When the writer's cursor starts at a
    slot of the array, whatever the four calls return: no step of a run
    leaves the array, a run takes at most 247 steps, and as long as
    [main] has neither returned nor called [exit], [main] or a thread can
    take a step.  A run in which [main] has returned took exactly 247
    steps, and nothing steps after it. *)
Theorem rw_process_terminates (writePt0 : Z) (junk : nat -> Z)
    (sched : list actor) (p : process) :
  0 <= writePt0 < NUM_TOTAL_BUFFERS ->
  pexec sched (process_init writePt0 junk) = PRunning p ->
  (length sched <= 247)%nat /\
  (forall a, pstep a p <> PFault) /\
  (main_at p <> MAllDone -> (forall c, main_at p <> MExit c) ->
     exists a p', pstep a p = PRunning p') /\
  (main_at p = MAllDone ->
     length sched = 247%nat /\ forall a, pstep a p = PDisabled).
Proof.
  intros Hw0 H.
  pose proof (rw_pexec_shared sched _ p H) as Hrun. simpl in Hrun.
  pose proof (inv_sem_init writePt0 junk) as I0.
  pose proof (exec_inv_cur random_r writePt0 _ _ _ I0
                (inv_cur_init writePt0 junk Hw0) Hrun) as C.
  destruct (rw_pexec_inv sched _ p (rw_main_ok_init writePt0 junk) I0 H)
    as (M & I & Hle & Heq).
  destruct (steps_left_bounds _ I) as [Hwt Hrt].
  assert (0 <= main_todo p) as Hmt by (unfold main_todo; destruct (main_at p); lia).
  unfold process_steps_left, steps_left in *. simpl in Hle, Heq.
  change (main_todo (process_init writePt0 junk)) with 5 in *.
  change (w_todo (init writePt0 junk)) with 121 in *.
  change (r_todo (init writePt0 junk)) with 121 in *.
  split; [lia|]. split; [|split].
  - intros [|t]; simpl; [apply main_step_no_fault|].
    unfold thread_step. intros E.
    assert (step random_r t (shared p) <> Fault) as Hnf.
    { destruct t; [apply (writer_no_fault random_r writePt0 _ C)
                  | apply (reader_no_fault random_r _ I)]. }
    destruct (main_at p); try discriminate;
      destruct (thread_created t p); try discriminate;
      destruct (step random_r t (shared p)); try discriminate; congruence.
  - apply (rw_process_progress writePt0 p M I C).
  - intros Hm. unfold ReaderWriterProgram.main_ok in M. rewrite Hm in M.
    destruct M as (_ & _ & F).
    destruct (finished_final random_r _ I F) as (Hz & _).
    unfold steps_left in Hz. split.
    + specialize (Heq ltac:(intros (c & [E|E]); congruence)).
      unfold main_todo in Heq. rewrite Hm in Heq. lia.
    + intros [|t]; simpl; unfold main_step, thread_step; rewrite Hm; reflexivity.
Qed.

(** A step of one thread leaves the other where it is. *)
Lemma step_other_thread (t : tid) (s s' : state) :
  step random_r t s = Running s' ->
  match t with
  | TWriter => r_pc s' = r_pc s /\ reader_out s' = reader_out s
  | TReader => w_pc s' = w_pc s /\ writer_out s' = writer_out s
  end.
Proof.
  intros H. destruct t; simpl in H; unfold step_writer, step_reader in H.
  - destruct (w_pc s);
      repeat match type of H with
             | context [if ?c then _ else _] => destruct c
             end;
      try discriminate; injection H as <-; split; reflexivity.
  - destruct (r_pc s);
      repeat match type of H with
             | context [if ?c then _ else _] => destruct c
             | context [match ?c with Some _ => _ | None => _ end] => destruct c
             end;
      try discriminate; injection H as <-; split; reflexivity.
Qed.

(** A thread that [main] has not created has not taken a step. *)
Lemma rw_not_started (sched : list actor) (p p' : process) :
  not_started p -> pexec sched p = PRunning p' -> not_started p'.
Proof.
  revert p. induction sched as [|a sched IH]; intros p J H; simpl in H.
  - injection H as <-. exact J.
  - destruct (pstep a p) as [p1| |] eqn:Hs; try discriminate.
    apply (IH p1); [|exact H]. destruct J as [Jw Jr].
    destruct a as [|t]; simpl in Hs.
    + pose proof (rw_main_step_shared p p1 Hs) as Hsh.
      unfold not_started. rewrite Hsh. unfold main_step in Hs.
      destruct (main_at p); main_cases Hs; try discriminate Hs;
        injection Hs as <-; simpl; split; try assumption; discriminate.
    + destruct (thread_step_inv t p p1 Hs) as (Hc & Hstep & _ & Hw & Hr & _).
      pose proof (step_other_thread t _ _ Hstep) as Hf.
      unfold not_started. rewrite Hw, Hr.
      destruct t; simpl in Hc; destruct Hf as [-> ->]; split;
        try assumption; intros E; congruence.
Qed.

(** X15: [main] calls [exit] only for a call that failed.  When [main]
    is in [exit], and when [exit] has ended the process, the code is 1
    and [main] has printed exactly one line, for the first of the four
    calls that did not return 0; the join of the reader is reached only
    after the writer has exited.  A thread whose creation failed, or
    was not reached, stands at the entry of its function and has printed
    nothing; and what the threads have done, the steps they took while
    [main] was in [exit] included, is a run of the two threads on their
    own. *)
Theorem rw_exit_only_on_failed_call (writePt0 : Z) (junk : nat -> Z)
    (sched : list actor) (p : process) (code : Z) :
  pexec sched (process_init writePt0 junk) = PRunning p ->
  main_at p = MExiting code \/ main_at p = MExit code ->
  code = 1 /\
  ((create_writer_rc rc <> 0 /\ writer_created p = false /\
    reader_created p = false /\
    main_out p = [CreateWriterFailed (create_writer_rc rc)]) \/
   (create_writer_rc rc = 0 /\ create_reader_rc rc <> 0 /\
    reader_created p = false /\
    main_out p = [CreateReaderFailed (create_reader_rc rc)]) \/
   (create_writer_rc rc = 0 /\ create_reader_rc rc = 0 /\
    join_writer_rc rc <> 0 /\
    main_out p = [JoinWriterFailed (join_writer_rc rc)]) \/
   (create_writer_rc rc = 0 /\ create_reader_rc rc = 0 /\
    join_writer_rc rc = 0 /\ join_reader_rc rc <> 0 /\
    w_pc (shared p) = WDone /\
    main_out p = [JoinReaderFailed (join_reader_rc rc)])) /\
  (writer_created p = false ->
     w_pc (shared p) = WLoop /\ writer_out (shared p) = []) /\
  (reader_created p = false ->
     r_pc (shared p) = RLoop /\ reader_out (shared p) = []) /\
  exec random_r (threads_of sched) (init writePt0 junk) = Running (shared p).
Proof.
  intros H Hm.
  pose proof (rw_pexec_shared sched _ p H) as Hrun. simpl in Hrun.
  destruct (rw_pexec_inv sched _ p (rw_main_ok_init writePt0 junk)
              (inv_sem_init writePt0 junk) H) as (M & _).
  assert (code = 1 /\ failed_call rc p) as [Hc Hwhy].
  { unfold ReaderWriterProgram.main_ok in M.
    destruct Hm as [Hm|Hm]; rewrite Hm in M; exact M. }
  assert (not_started (process_init writePt0 junk)) as J0
    by (split; intros _; split; reflexivity).
  destruct (rw_not_started sched _ p J0 H) as [Jw Jr].
  split; [exact Hc|]. split; [exact Hwhy|].
  split; [exact Jw|]. split; [exact Jr | exact Hrun].
Qed.
End ReaderWriterProgramFacts.

Section ReaderWriterProgramRuns.
Import ReaderWriter ReaderWriterProgram.

Lemma semaphores_outlive_threads_witness :
  exists p,
    pexec (fun _ => 0) (mkReturnCodes 0 0 0 0)
      ([Main; Thread TWriter; Main]
         ++ replicate 5 (Thread TWriter)
         ++ concat (replicate 19 (replicate 6 (Thread TReader)
                                    ++ replicate 6 (Thread TWriter)))
         ++ [Thread TWriter; Main] ++ replicate 7 (Thread TReader)
         ++ [Main; Main])
      (process_init 0 (fun _ => 0)) = PRunning p /\
    main_at p = MAllDone /\ main_out p = [AllDone] /\
    finished (shared p) = true.
Proof.
  eexists. split; [vm_compute; reflexivity|]. split; [reflexivity|].
  refine ((fun H => conj (proj1 (proj2 (proj2 H)) _)
                      (proj1 (proj2 (proj1 (proj2 H) _))))
    (semaphores_outlive_threads (fun _ => 0) (mkReturnCodes 0 0 0 0)
       0 (fun _ => 0)
       ([Main; Thread TWriter; Main]
          ++ replicate 5 (Thread TWriter)
          ++ concat (replicate 19 (replicate 6 (Thread TReader)
                                     ++ replicate 6 (Thread TWriter)))
          ++ [Thread TWriter; Main] ++ replicate 7 (Thread TReader)
          ++ [Main; Main]) _ _)).
  - reflexivity.
  - right. reflexivity.
  - vm_compute; reflexivity.
Defined.

Lemma rw_process_terminates_witness :
  exists p,
    pexec (fun _ => 0) (mkReturnCodes 0 0 0 0)
      ([Main] ++ replicate 32 (Thread TWriter) ++ [Main])
      (process_init 4 (fun _ => 0)) = PRunning p /\
    pstep (fun _ => 0) (mkReturnCodes 0 0 0 0) Main p = PDisabled /\
    pstep (fun _ => 0) (mkReturnCodes 0 0 0 0) (Thread TWriter) p = PDisabled /\
    exists a p', pstep (fun _ => 0) (mkReturnCodes 0 0 0 0) a p = PRunning p'.
Proof.
  eexists. split; [vm_compute; reflexivity|].
  split; [reflexivity|]. split; [reflexivity|].
  refine (proj1 (proj2 (proj2
    (rw_process_terminates (fun _ => 0) (mkReturnCodes 0 0 0 0) 4 (fun _ => 0)
       ([Main] ++ replicate 32 (Thread TWriter) ++ [Main]) _ _ _))) _ _).
  - unfold NUM_TOTAL_BUFFERS; lia.
  - vm_compute; reflexivity.
  - discriminate.
  - intros c; discriminate.
Defined.

Lemma rw_exit_only_on_failed_call_witness :
  exists p,
    pexec (fun _ => 0) (mkReturnCodes 0 11 0 0)
      ([Main; Thread TWriter; Thread TWriter; Main]
         ++ replicate 3 (Thread TWriter) ++ [Main])
      (process_init 0 (fun _ => 0)) = PRunning p /\
    main_at p = MExit 1 /\ main_out p = [CreateReaderFailed 11] /\
    writer_out (shared p) = [(0, 65)] /\
    r_pc (shared p) = RLoop /\ reader_out (shared p) = [].
Proof.
  eexists. split; [vm_compute; reflexivity|].
  split; [reflexivity|]. split; [reflexivity|]. split; [reflexivity|].
  refine (proj1 (proj2 (proj2 (proj2
    (rw_exit_only_on_failed_call (fun _ => 0) (mkReturnCodes 0 11 0 0)
       0 (fun _ => 0)
       ([Main; Thread TWriter; Thread TWriter; Main]
          ++ replicate 3 (Thread TWriter) ++ [Main]) _ 1 _ _)))) _).
  - vm_compute; reflexivity.
  - right. reflexivity.
  - reflexivity.
Defined.
End ReaderWriterProgramRuns.
